(** * SymForce: the generated prior factor and the optimizer facade

    A shallow embedding of
    - [bundle_adjustment_example::LandmarkPriorFactor]
      (gen/cpp/symforce/bundle_adjustment_example/landmark_prior_factor.h),
    - the interface of [sym::Optimizer] (symforce/opt/optimizer.h).

    [LandmarkPriorFactor] is a template over its [Scalar]; it is embedded
    over an arbitrary scalar arithmetic, which is then taken to be exact
    (rationals, where a division by zero is undefined), IEEE 754 binary64
    ([double]) or binary32 ([float]).  Output pointers are modelled over an
    explicit store of 1x1 matrices.  Of the optimizer only the header is at
    hand; the bodies of its methods are modelled from the specification. *)

From Stdlib Require Import QArith Qabs Qfield Lia List ZArith Ascii SpecFloat.
From stdpp Require Import base option gmap strings.
Import ListNotations.
Open Scope Q_scope.

(** * Part I: the embedding *)

(** ** Scalars *)

(** The operations [LandmarkPriorFactor] asks of its [Scalar], and the
    conversion of a constant. *)
Class Arith (Scalar : Type) : Type := {
  Sadd : Scalar -> Scalar -> Scalar;
  Sneg : Scalar -> Scalar;
  Smul : Scalar -> Scalar -> Scalar;
  Sdiv : Scalar -> Scalar -> Scalar;
  Sconst : Q -> Scalar
}.

Declare Scope scalar_scope.
Delimit Scope scalar_scope with S.
Infix "+" := Sadd : scalar_scope.
Infix "*" := Smul : scalar_scope.
Infix "/" := Sdiv : scalar_scope.
Notation "- a" := (Sneg a) : scalar_scope.

(** *** Exact arithmetic *)

Module Exact.

(** A rational number, or the undefined result of a division by zero. *)
Inductive t : Type :=
| Num (q : Q)
| Undef.

Definition add (a b : t) : t :=
  match a, b with
  | Num x, Num y => Num (x + y)
  | _, _ => Undef
  end.

Definition neg (a : t) : t :=
  match a with
  | Num x => Num (- x)
  | Undef => Undef
  end.

Definition mul (a b : t) : t :=
  match a, b with
  | Num x, Num y => Num (x * y)
  | _, _ => Undef
  end.

Definition is_zero (q : Q) : bool := Qeq_bool q 0.

(** [a / b]: undefined when the denominator is zero. *)
Definition div (a b : t) : t :=
  match a, b with
  | Num x, Num y => if is_zero y then Undef else Num (x / y)
  | _, _ => Undef
  end.

(** Equality of scalars as numbers: two defined scalars are equal when
    they are the same rational, and [Undef] only equals [Undef]. *)
Definition eq (a b : t) : Prop :=
  match a, b with
  | Num x, Num y => x == y
  | Undef, Undef => True
  | _, _ => False
  end.

#[global] Instance arith : Arith t := {
  Sadd := add;
  Sneg := neg;
  Smul := mul;
  Sdiv := div;
  Sconst := Num
}.

End Exact.

Abbreviation Num := Exact.Num.
Abbreviation Undef := Exact.Undef.
Infix "=s=" := Exact.eq (at level 70, no associativity).

(** *** IEEE 754 arithmetic *)

Module IEEE.

(** The two formats the repository instantiates [Scalar] at: [float] and
    [double]. Numbers are the [spec_float] of the standard library, the
    operations its correctly rounded ones (to nearest, ties to even). *)
Inductive format : Type :=
| binary32
| binary64.

Definition prec (f : format) : Z :=
  match f with
  | binary32 => 24
  | binary64 => 53
  end.

Definition emax (f : format) : Z :=
  match f with
  | binary32 => 128
  | binary64 => 1024
  end.

Definition add (f : format) : spec_float -> spec_float -> spec_float :=
  SFadd (prec f) (emax f).

Definition neg : spec_float -> spec_float := SFopp.

Definition mul (f : format) : spec_float -> spec_float -> spec_float :=
  SFmul (prec f) (emax f).

Definition div (f : format) : spec_float -> spec_float -> spec_float :=
  SFdiv (prec f) (emax f).

(** The integer [z] and the integer [z] times [2^e], rounded to the format. *)
Definition of_Z (f : format) (z : Z) : spec_float :=
  binary_normalize (prec f) (emax f) z 0 false.

Definition scaled (f : format) (z e : Z) : spec_float :=
  binary_normalize (prec f) (emax f) z e false.

(** The rational [q] in the format: the correctly rounded quotient of its
    numerator and its denominator, themselves rounded to the format. *)
Definition of_Q (f : format) (q : Q) : spec_float :=
  div f (of_Z f (Qnum q)) (of_Z f (Zpos (Qden q))).

Definition is_zero (x : spec_float) : bool :=
  match x with
  | S754_zero _ => true
  | _ => false
  end.

(** Neither an infinity nor a NaN. *)
Definition is_finite (x : spec_float) : bool :=
  match x with
  | S754_zero _ | S754_finite _ _ _ => true
  | _ => false
  end.

Definition is_negative (x : spec_float) : bool :=
  match x with
  | S754_zero s | S754_infinity s | S754_finite s _ _ => s
  | S754_nan => false
  end.

Definition arith (f : format) : Arith spec_float := {|
  Sadd := add f;
  Sneg := neg;
  Smul := mul f;
  Sdiv := div f;
  Sconst := of_Q f
|}.

End IEEE.

(** ** The store behind the output pointers *)

(** [Eigen::Matrix<Scalar, 1, 1>]: one coefficient, at (0, 0). *)
Record Matrix11 (Scalar : Type) : Type := mkMatrix11 { coeff00 : Scalar }.
Arguments mkMatrix11 {Scalar} _.
Arguments coeff00 {Scalar} _.

Definition addr := positive.

(** A pointer to a [Matrix11]: [None] is [nullptr]. *)
Definition ptr := option addr.
Definition nullptr : ptr := None.

Definition is_null (p : ptr) : bool :=
  match p with
  | None => true
  | Some _ => false
  end.

(** The machine a call runs on: the objects that are alive, and the
    denominators of the divisions performed so far, oldest first. *)
Record machine (Scalar : Type) : Type := mkMachine {
  heap : gmap addr (Matrix11 Scalar);
  divisions : list Scalar
}.
Arguments mkMachine {Scalar} _ _.
Arguments heap {Scalar} _.
Arguments divisions {Scalar} _.

Inductive fault : Type :=
| NullDereference
| InvalidPointer (a : addr).

Inductive result (Scalar A : Type) : Type :=
| Done (a : A) (m : machine Scalar)
| Fault (f : fault).
Arguments Done {Scalar A} a m.
Arguments Fault {Scalar A} f.

Definition M (Scalar A : Type) : Type := machine Scalar -> result Scalar A.

Definition ret {Scalar A} (a : A) : M Scalar A := fun m => Done a m.

Definition bind {Scalar A B} (c : M Scalar A) (k : A -> M Scalar B) : M Scalar B :=
  fun m =>
    match c m with
    | Done a m' => k a m'
    | Fault f => Fault f
    end.

Notation "x <- c ;; k" := (bind c (fun x => k))
  (at level 100, c at next level, right associativity).
Notation "c ;;; k" := (bind c (fun _ => k))
  (at level 100, right associativity).

Definition when {Scalar} (b : bool) (c : M Scalar unit) : M Scalar unit :=
  if b then c else ret tt.

(** [*p]: the object behind [p]. Dereferencing [nullptr], or a pointer to
    no live object, is a fault. *)
Definition deref {Scalar} (p : ptr) : M Scalar addr :=
  fun m =>
    match p with
    | None => Fault NullDereference
    | Some a =>
        match heap m !! a with
        | Some _ => Done a m
        | None => Fault (InvalidPointer a)
        end
    end.

(** [_m(0, 0) = v] through the reference [_m]. *)
Definition assign00 {Scalar} (_m : addr) (v : Scalar) : M Scalar unit :=
  fun m => Done tt (mkMachine (<[_m := mkMatrix11 v]> (heap m)) (divisions m)).

(** The store after [*p = v] when [p] is not null, the same store when it is. *)
Definition write {Scalar} (p : ptr) (v : Scalar) (h : gmap addr (Matrix11 Scalar))
  : gmap addr (Matrix11 Scalar) :=
  match p with
  | None => h
  | Some a => <[a := mkMatrix11 v]> h
  end.

(** [p] is null or points to a live object of [h]. *)
Definition allocated {Scalar} (h : gmap addr (Matrix11 Scalar)) (p : ptr) : bool :=
  match p with
  | None => true
  | Some a => match h !! a with Some _ => true | None => false end
  end.

(** [p] and [q] do not point to the same object. *)
Definition no_alias (p q : ptr) : bool :=
  match p, q with
  | Some a, Some b => negb (Pos.eqb a b)
  | _, _ => true
  end.

(** The output arguments of a call are usable: each is null or live, and
    no two of them name the same matrix. *)
Definition outputs_ok {Scalar} (m : machine Scalar) (res jacobian hessian rhs : ptr)
  : bool :=
  allocated (heap m) res && allocated (heap m) jacobian
  && allocated (heap m) hessian && allocated (heap m) rhs
  && no_alias res jacobian && no_alias res hessian && no_alias res rhs
  && no_alias jacobian hessian && no_alias jacobian rhs && no_alias hessian rhs.

(** The coefficient a caller reads back through [p] after the call. *)
Definition output {Scalar} (m : machine Scalar) (p : ptr) : option Scalar :=
  match p with
  | None => None
  | Some a => coeff00 <$> heap m !! a
  end.

(** What a caller who passed [p] for an output of value [v] must find:
    nothing to read through a null pointer, [v] otherwise. *)
Definition requested {Scalar} (p : ptr) (v : Scalar) : option Scalar :=
  if is_null p then None else Some v.

(** ** LandmarkPriorFactor *)

Section Factor.
Context {Scalar : Type} {ops : Arith Scalar}.

(** [a / b] as the machine performs it: the denominator is recorded. *)
Definition divide (a b : Scalar) : M Scalar Scalar :=
  fun m => Done (a / b)%S (mkMachine (heap m) (divisions m ++ [b])).

Definition LandmarkPriorFactor
    (landmark inverse_range_prior weight sigma epsilon : Scalar)
    (res jacobian hessian rhs : ptr) : M Scalar unit :=
  (* Intermediate terms (4) *)
  let _tmp0 := (- inverse_range_prior + landmark)%S in
  let _tmp1 := (epsilon + sigma)%S in
  _tmp2 <- divide weight _tmp1 ;;
  _tmp3 <- divide (weight * weight)%S (_tmp1 * _tmp1)%S ;;
  (* Output terms (4) *)
  when (negb (is_null res))
    (_res <- deref res ;;
     assign00 _res (_tmp0 * _tmp2)%S) ;;;
  when (negb (is_null jacobian))
    (_jacobian <- deref jacobian ;;
     assign00 _jacobian _tmp2) ;;;
  when (negb (is_null hessian))
    (_hessian <- deref hessian ;;
     assign00 _hessian _tmp3) ;;;
  when (negb (is_null rhs))
    (_rhs <- deref rhs ;;
     assign00 _rhs (_tmp0 * _tmp3)%S).

(** *** What a call leaves behind *)

(** The value of each output term, as the source computes it. *)
Definition res_term (landmark inverse_range_prior weight sigma epsilon : Scalar) : Scalar :=
  ((- inverse_range_prior + landmark) * (weight / (epsilon + sigma)))%S.

Definition jacobian_term (weight sigma epsilon : Scalar) : Scalar :=
  (weight / (epsilon + sigma))%S.

Definition hessian_term (weight sigma epsilon : Scalar) : Scalar :=
  ((weight * weight) / ((epsilon + sigma) * (epsilon + sigma)))%S.

Definition rhs_term (landmark inverse_range_prior weight sigma epsilon : Scalar) : Scalar :=
  ((- inverse_range_prior + landmark)
   * ((weight * weight) / ((epsilon + sigma) * (epsilon + sigma))))%S.

(** Modelled from the spec: the error of a residual vector [R], one half
    of its squared norm (the linearization code that computes it is not
    part of the sources at hand). *)
Definition error (R : list Scalar) : Scalar :=
  (Sconst (1 # 2) * fold_right (fun r acc => r * r + acc) (Sconst 0) R)%S.

(** The inverse of a 1x1 matrix. *)
Definition inverse11 (A : Matrix11 Scalar) : Matrix11 Scalar :=
  mkMatrix11 (Sconst 1 / coeff00 A)%S.

End Factor.

(** ** The optimizer facade *)

Module Optimizer.

(** *** The driver *)

(** Modelled from the spec: the states of the Levenberg-Marquardt driver
    (levenberg_marquardt_solver.h is not part of the sources at hand). *)
Inductive status : Type :=
| INIT
| ITERATING
| CONVERGED
| MAX_ITERATIONS
| DIVERGED
| NUMERICAL_FAILURE.

(** The driver goes on iterating from these states only. *)
Definition running (st : status) : bool :=
  match st with
  | INIT | ITERATING => true
  | _ => false
  end.

(** Modelled from the spec: the one parameter of [optimizer_params_t] the
    facade reads itself, the maximum number of outer iterations. *)
Record optimizer_params_t : Type := { iterations : Z }.

(** What [Optimize] leaves behind: the values, updated in place, the
    exit status kept in the stats, the linearization handed back through
    [best_linearization] when that pointer is not null, and the returned
    flag. *)
Record outcome (Values Linearization : Type) : Type := mkOutcome {
  final_values : Values;
  exit_status : status;
  best : option Linearization;
  returned : bool
}.
Arguments mkOutcome {Values Linearization}.
Arguments final_values {Values Linearization}.
Arguments exit_status {Values Linearization}.
Arguments best {Values Linearization}.
Arguments returned {Values Linearization}.

Section Driver.
Context {Values Linearization : Type}.

(** [nonlinear_solver_.Iterate]: one iteration of the driver on the
    values; it reports the state the driver is in afterwards. *)
Variable Iterate : Values -> Values * status.

(** [Linearize]: the problem linearized around the given values. *)
Variable Linearize : Values -> Linearization.

Variable params : optimizer_params_t.

(** Modelled from the spec: [IterateToConvergence] (declared in
    optimizer.h, its body is not part of the sources at hand): call
    [Iterate] until out of iterations or converged; a driver that
    diverged or failed numerically stops as well. *)
Fixpoint IterateToConvergence (values : Values) (num_iterations : nat)
  : Values * status * bool :=
  match num_iterations with
  | O => (values, MAX_ITERATIONS, false)
  | S n =>
      let (values', st) := Iterate values in
      match st with
      | CONVERGED => (values', CONVERGED, true)
      | DIVERGED => (values', DIVERGED, false)
      | NUMERICAL_FAILURE => (values', NUMERICAL_FAILURE, false)
      | MAX_ITERATIONS => (values', MAX_ITERATIONS, false)
      | INIT | ITERATING => IterateToConvergence values' n
      end
  end.

(** The number of iterations a call is allowed: a negative
    [num_iterations] stands for the number of iterations of the params. *)
Definition budget (num_iterations : Z) : nat :=
  Z.to_nat (if (num_iterations <? 0)%Z then iterations params else num_iterations).

(** Modelled from the spec: [Optimize] (declared in optimizer.h, its
    body is not part of the sources at hand). *)
Definition Optimize (values : Values) (num_iterations : Z)
    (best_linearization : bool) : outcome Values Linearization :=
  let '(values', st, early_exit) :=
    IterateToConvergence values (budget num_iterations) in
  mkOutcome values' st
    (if best_linearization then Some (Linearize values') else None)
    early_exit.

(** What the solver does when it is left to iterate, whatever it reports:
    the values after [k] iterations, and the state it reports at the end
    of iteration [k] (counted from 0). *)
Fixpoint values_after (values : Values) (k : nat) : Values :=
  match k with
  | O => values
  | S k' => values_after (fst (Iterate values)) k'
  end.

Definition report (values : Values) (k : nat) : status :=
  snd (Iterate (values_after values k)).

End Driver.

(** *** Keys and covariances *)

(** Modelled from the spec: a key is a letter, a subscript and an
    optional superscript. *)
Record Key : Type := mkKey { letter : ascii; sub : N; super : option N }.

#[global] Instance Key_eq_dec : EqDecision Key.
Proof. solve_decision. Defined.

#[global] Instance Key_countable : Countable Key.
Proof.
  apply (inj_countable' (fun k => (letter k, sub k, super k))
                        (fun t => mkKey t.1.1 t.1.2 t.2)).
  by intros [].
Defined.

(** Modelled from the spec: an entry of the index, the place of a key in
    the storage and in the tangent space of the problem. *)
Record index_entry_t : Type := mkEntry {
  key : Key;
  storage_offset : nat;
  storage_dim : nat;
  tangent_offset : nat;
  tangent_dim : nat
}.

(** The sum of the tangent dimensions of the entries. *)
Definition block_dim (entries : list index_entry_t) : nat :=
  foldr (fun e n => (tangent_dim e + n)%nat) 0%nat entries.

(** Modelled from the spec: the entries of an index follow one another in
    the tangent space, the first of them at offset [off]. *)
Fixpoint offsets_from (off : nat) (index : list index_entry_t) : bool :=
  match index with
  | [] => true
  | e :: rest =>
      (tangent_offset e =? off)%nat && offsets_from (off + tangent_dim e) rest
  end.

(** [MatrixX<Scalar>]: a dense matrix of run-time size, here of rationals. *)
Record MatrixX : Type := mkMatrixX {
  rows : nat;
  cols : nat;
  coeff : nat -> nat -> Q
}.

(** [f 0 + ... + f (n - 1)]. *)
Fixpoint sum_upto (n : nat) (f : nat -> Q) : Q :=
  match n with
  | O => 0
  | S k => sum_upto k f + f k
  end.

(** The coefficient of the identity at [(i, j)]. *)
Definition delta (i j : nat) : Q := if (i =? j)%nat then 1 else 0.

Definition block (A : MatrixX) (i j r c : nat) : MatrixX :=
  mkMatrixX r c (fun i' j' => coeff A (i + i') (j + j')).

Definition transpose (A : MatrixX) : MatrixX :=
  mkMatrixX (cols A) (rows A) (fun i j => coeff A j i).

Definition msub (A B : MatrixX) : MatrixX :=
  mkMatrixX (rows A) (cols A) (fun i j => coeff A i j - coeff B i j).

Definition mmul (A B : MatrixX) : MatrixX :=
  mkMatrixX (rows A) (cols B)
    (fun i j => sum_upto (cols A) (fun k => coeff A i k * coeff B k j)).

(** The coefficients of a matrix, row by row. *)
Definition to_rows (A : MatrixX) : list (list Q) :=
  map (fun i => map (fun j => coeff A i j) (seq 0 (cols A))) (seq 0 (rows A)).

Definition of_rows (n : nat) (L : list (list Q)) : MatrixX :=
  mkMatrixX n n (fun i j => nth j (nth i L []) 0).

(** The first row at or below row [k] whose coefficient in column [k] is
    not zero; [i] is the index of the head of [L]. *)
Fixpoint find_pivot (k : nat) (L : list (list Q)) (i : nat) : option nat :=
  match L with
  | [] => None
  | r :: L' =>
      if (k <=? i)%nat && negb (Qeq_bool (nth k r 0) 0) then Some i
      else find_pivot k L' (S i)
  end.

(** Rows [k] and [p] exchanged. *)
Definition swap_rows (k p : nat) (L : list (list Q)) : list (list Q) :=
  let rk := nth k L [] in
  let rp := nth p L [] in
  <[p := rk]> (<[k := rp]> L).

(** One step of the elimination: the pivot row of column [k] is brought
    to row [k] and scaled, and column [k] is cleared in every other row. *)
Definition eliminate (k : nat) (L : list (list Q)) : option (list (list Q)) :=
  match find_pivot k L 0 with
  | None => None
  | Some p =>
      let L1 := swap_rows k p L in
      let rk := nth k L1 [] in
      let pivot_row := map (fun x => Qred (x / nth k rk 0)) rk in
      Some (imap (fun i r =>
                    if (i =? k)%nat then pivot_row
                    else zip_with (fun x y => Qred (x - nth k r 0 * y)) r pivot_row)
                 L1)
  end.

(** Gauss-Jordan elimination on [A | I]; [None] when a pivot is missing. *)
Definition gauss_jordan (A : MatrixX) : option MatrixX :=
  let n := rows A in
  let augmented :=
    imap (fun i r => r ++ map (fun j => delta i j) (seq 0 n)) (to_rows A) in
  match foldl (fun acc k => match acc with
                            | Some L => eliminate k L
                            | None => None
                            end)
              (Some augmented) (seq 0 n) with
  | Some L => Some (of_rows n (map (drop n) L))
  | None => None
  end.

(** [A] is a square matrix with the coefficients of the identity. *)
Definition is_identity (A : MatrixX) : bool :=
  (rows A =? cols A)%nat
  && forallb (fun i =>
                forallb (fun j => Qeq_bool (coeff A i j) (delta i j)) (seq 0 (cols A)))
             (seq 0 (rows A)).

(** Modelled from the spec: the inverse the linear solver returns (the
    solver is an external collaborator): the result of the elimination,
    handed out once it is checked against [A]; [None] is the solver's
    report of a failure, on a singular or a non-square matrix. *)
Definition inverse (A : MatrixX) : option MatrixX :=
  if negb (rows A =? cols A)%nat then None
  else
    match gauss_jordan A with
    | Some X => if is_identity (mmul A X) then Some X else None
    | None => None
    end.

(** Modelled from the spec: the Schur complement [S = B - E C^-1 E^T] of
    the Hessian partitioned after its first [n] rows and columns. *)
Definition schur_complement (hessian : MatrixX) (n : nat) : option MatrixX :=
  let rest := (rows hessian - n)%nat in
  let B := block hessian 0 0 n n in
  let E := block hessian 0 n n rest in
  let C := block hessian n n rest rest in
  match inverse C with
  | None => None
  | Some Cinv => Some (msub B (mmul (mmul E Cinv) (transpose E)))
  end.

(** The diagonal block of [covariance] that belongs to the entry [e]. *)
Definition covariance_block (covariance : MatrixX) (e : index_entry_t) : MatrixX :=
  block covariance (tangent_offset e) (tangent_offset e) (tangent_dim e) (tangent_dim e).

(** Modelled from the spec: [ComputeCovariances] (declared in optimizer.h,
    its body is not part of the sources at hand). [keys] must be a prefix
    of the keys of the index; [None] stands for a call outside of that
    contract, or on a Hessian whose blocks cannot be inverted. *)
Definition ComputeCovariances (hessian : MatrixX) (index : list index_entry_t)
    (keys : list Key) (covariances_by_key : gmap Key MatrixX)
  : option (gmap Key MatrixX) :=
  if decide (keys `prefix_of` (key <$> index)) then
    let requested := take (length keys) index in
    match schur_complement hessian (block_dim requested) with
    | None => None
    | Some schur =>
        match inverse schur with
        | None => None
        | Some Sinv =>
            Some (foldl (fun out e => <[key e := covariance_block Sinv e]> out)
                        covariances_by_key requested)
        end
    end
  else None.

End Optimizer.

Import Optimizer.

(** ** Stores and problems used as examples *)

Definition one_matrix : machine Exact.t :=
  mkMachine (<[1%positive := mkMatrix11 (Num 0)]> ∅) [].

Definition two_matrices : machine Exact.t :=
  mkMachine (<[1%positive := mkMatrix11 (Num 7)]>
               (<[2%positive := mkMatrix11 (Num 8)]> ∅)) [].

Definition four_matrices : machine Exact.t :=
  mkMachine (<[1%positive := mkMatrix11 (Num 0)]>
               (<[2%positive := mkMatrix11 (Num 0)]>
                  (<[3%positive := mkMatrix11 (Num 0)]>
                     (<[4%positive := mkMatrix11 (Num 0)]> ∅)))) [].

(** Four matrices of floating-point numbers, all zero. *)
Definition four_floats : machine spec_float :=
  mkMachine (<[1%positive := mkMatrix11 (S754_zero false)]>
               (<[2%positive := mkMatrix11 (S754_zero false)]>
                  (<[3%positive := mkMatrix11 (S754_zero false)]>
                     (<[4%positive := mkMatrix11 (S754_zero false)]> ∅)))) [].

(** A rational as a [double]: [double (1 # 1000000000)] is the literal
    [1e-9], since [10^9] is a [double]. *)
Definition double (q : Q) : spec_float := IEEE.of_Q IEEE.binary64 q.

(** A solver step on counters: the values count the iterations made, and
    the driver has converged once [target] is reached. *)
Definition count_to (target : nat) (values : nat) : nat * status :=
  (S values, if (target <=? S values)%nat then CONVERGED else ITERATING).

(** A problem with three scalar keys, two poses and one landmark. *)
Definition x0 : Key := mkKey "x" 0 None.
Definition x1 : Key := mkKey "x" 1 None.
Definition l0 : Key := mkKey "l" 0 None.

Definition index3 : list index_entry_t :=
  [mkEntry x0 0 1 0 1; mkEntry x1 1 1 1 1; mkEntry l0 2 1 2 1].

Definition hessian3 : MatrixX :=
  of_rows 3 [[4; 1; 2]; [1; 3; 0]; [2; 0; 5]].

Definition schur3 : MatrixX :=
  match schur_complement hessian3 2 with
  | Some schur => schur
  | None => of_rows 0 []
  end.

Definition covariance3 : MatrixX :=
  match inverse schur3 with
  | Some Sinv => Sinv
  | None => of_rows 0 []
  end.

(** * Part II: properties *)

(** ** The run of a call, in any arithmetic *)

Section Run.
Context {Scalar : Type} {ops : Arith Scalar}.
Implicit Types (h : gmap addr (Matrix11 Scalar)) (m : machine Scalar)
  (p q res jacobian hessian rhs : ptr) (v : Scalar).

Lemma allocated_write h p q v :
  allocated h p = true -> allocated (write q v h) p = true.
Proof.
  destruct p as [a|], q as [b|]; simpl; auto.
  intros H. destruct (decide (b = a)) as [->|Hne].
  - by rewrite lookup_insert_eq.
  - by rewrite lookup_insert_ne.
Qed.

Lemma guarded_store_run p v m :
  allocated (heap m) p = true ->
  when (negb (is_null p)) (_p <- deref p ;; assign00 _p v) m
  = Done tt (mkMachine (write p v (heap m)) (divisions m)).
Proof.
  destruct p as [a|]; simpl.
  - unfold bind, deref, assign00. simpl.
    destruct (heap m !! a); [reflexivity | discriminate].
  - intros _. unfold ret. by destruct m.
Qed.

(** A guarded store never dereferences a null pointer, live or not. *)
Lemma guarded_store_no_null p v m :
  when (negb (is_null p)) (_p <- deref p ;; assign00 _p v) m
  <> Fault NullDereference.
Proof.
  destruct p as [a|]; simpl.
  - unfold bind, deref, assign00. simpl.
    destruct (heap m !! a); discriminate.
  - discriminate.
Qed.

Lemma LandmarkPriorFactor_run landmark inverse_range_prior weight sigma epsilon
    res jacobian hessian rhs m :
  allocated (heap m) res = true ->
  allocated (heap m) jacobian = true ->
  allocated (heap m) hessian = true ->
  allocated (heap m) rhs = true ->
  LandmarkPriorFactor landmark inverse_range_prior weight sigma epsilon
    res jacobian hessian rhs m
  = Done tt
      (mkMachine
         (write rhs (rhs_term landmark inverse_range_prior weight sigma epsilon)
            (write hessian (hessian_term weight sigma epsilon)
               (write jacobian (jacobian_term weight sigma epsilon)
                  (write res (res_term landmark inverse_range_prior weight sigma epsilon)
                     (heap m)))))
         (divisions m
          ++ [(epsilon + sigma)%S; ((epsilon + sigma) * (epsilon + sigma))%S])).
Proof.
  intros Hres Hjac Hhes Hrhs.
  unfold LandmarkPriorFactor.
  unfold bind at 1. unfold divide at 1. cbn [heap divisions].
  unfold bind at 1. unfold divide at 1. cbn [heap divisions].
  unfold bind at 1. rewrite guarded_store_run by exact Hres. cbn [heap divisions].
  unfold bind at 1. rewrite guarded_store_run by (by apply allocated_write).
  cbn [heap divisions].
  unfold bind at 1.
  rewrite guarded_store_run by (by do 2 apply allocated_write).
  cbn [heap divisions].
  rewrite guarded_store_run by (by do 3 apply allocated_write).
  cbn [heap divisions].
  rewrite <- app_assoc. reflexivity.
Qed.

Lemma lookup_write p v h a :
  write p v h !! a = if decide (p = Some a) then Some (mkMatrix11 v) else h !! a.
Proof.
  destruct p as [b|]; cbn [write]; case_decide; simplify_eq.
  - apply lookup_insert_eq.
  - apply lookup_insert_ne. congruence.
  - reflexivity.
Qed.

Lemma output_write_eq p v h ds :
  output (mkMachine (write p v h) ds) p = requested p v.
Proof.
  destruct p as [a|]; simpl; [| reflexivity].
  by rewrite lookup_insert_eq.
Qed.

Lemma output_write_ne p q v h ds :
  no_alias p q = true ->
  output (mkMachine (write q v h) ds) p = output (mkMachine h ds) p.
Proof.
  destruct p as [a|]; simpl; [| reflexivity].
  intros H. rewrite lookup_write. rewrite decide_False; [done |].
  intros ->. simpl in H. by rewrite Pos.eqb_refl in H.
Qed.

Lemma outputs_ok_allocated m res jacobian hessian rhs :
  outputs_ok m res jacobian hessian rhs = true ->
  allocated (heap m) res = true /\ allocated (heap m) jacobian = true
  /\ allocated (heap m) hessian = true /\ allocated (heap m) rhs = true.
Proof.
  unfold outputs_ok. rewrite !andb_true_iff. tauto.
Qed.

Lemma dom_write p v h :
  allocated h p = true -> dom (write p v h) = dom h.
Proof.
  destruct p as [a|]; cbn [write allocated]; [| reflexivity].
  destruct (h !! a) as [old|] eqn:E; [| discriminate]. intros _.
  rewrite dom_insert_L. apply subseteq_union_1_L.
  apply singleton_subseteq_l. apply elem_of_dom. by exists old.
Qed.

(** With usable output arguments the call returns and every output holds
    the value of its term. *)
Lemma LandmarkPriorFactor_outputs landmark inverse_range_prior weight sigma epsilon
    res jacobian hessian rhs m :
  outputs_ok m res jacobian hessian rhs = true ->
  exists m',
    LandmarkPriorFactor landmark inverse_range_prior weight sigma epsilon
      res jacobian hessian rhs m = Done tt m'
    /\ output m' res
       = requested res (res_term landmark inverse_range_prior weight sigma epsilon)
    /\ output m' jacobian = requested jacobian (jacobian_term weight sigma epsilon)
    /\ output m' hessian = requested hessian (hessian_term weight sigma epsilon)
    /\ output m' rhs
       = requested rhs (rhs_term landmark inverse_range_prior weight sigma epsilon)
    /\ divisions m'
       = divisions m
         ++ [(epsilon + sigma)%S; ((epsilon + sigma) * (epsilon + sigma))%S].
Proof.
  intros Hok.
  destruct (outputs_ok_allocated _ _ _ _ _ Hok) as (A1 & A2 & A3 & A4).
  unfold outputs_ok in Hok. rewrite !andb_true_iff in Hok.
  destruct Hok as (((((((((_ & _) & _) & _) & N12) & N13) & N14) & N23) & N24) & N34).
  eexists. split; [by apply LandmarkPriorFactor_run |].
  repeat split.
  - rewrite !output_write_ne by done. apply output_write_eq.
  - rewrite !output_write_ne by done. apply output_write_eq.
  - rewrite !output_write_ne by done. apply output_write_eq.
  - apply output_write_eq.
Qed.

End Run.

(** ** Null and non-null output pointers *)

(** C3. Whatever the output pointers, a call never dereferences a null
    one; and when every non-null pointer names a live matrix, the call
    returns, each matrix named by a non-null pointer holds the value of
    its output term (the later store wins where two pointers name the
    same matrix), and every other object of the store is left as it was. *)
Theorem LandmarkPriorFactor_null_safe {Scalar : Type} {ops : Arith Scalar}
    (landmark inverse_range_prior weight sigma epsilon : Scalar)
    (res jacobian hessian rhs : ptr) (m : machine Scalar) :
  LandmarkPriorFactor landmark inverse_range_prior weight sigma epsilon
    res jacobian hessian rhs m <> Fault NullDereference
  /\ (allocated (heap m) res && allocated (heap m) jacobian
      && allocated (heap m) hessian && allocated (heap m) rhs = true ->
      exists m',
        LandmarkPriorFactor landmark inverse_range_prior weight sigma epsilon
          res jacobian hessian rhs m = Done tt m'
        /\ forall a : addr,
             heap m' !! a =
               if decide (rhs = Some a) then
                 Some (mkMatrix11
                         (rhs_term landmark inverse_range_prior weight sigma epsilon))
               else if decide (hessian = Some a) then
                 Some (mkMatrix11 (hessian_term weight sigma epsilon))
               else if decide (jacobian = Some a) then
                 Some (mkMatrix11 (jacobian_term weight sigma epsilon))
               else if decide (res = Some a) then
                 Some (mkMatrix11
                         (res_term landmark inverse_range_prior weight sigma epsilon))
               else heap m !! a).
Proof.
  split.
  - unfold LandmarkPriorFactor.
    unfold bind at 1. unfold divide at 1.
    unfold bind at 1. unfold divide at 1.
    unfold bind at 1.
    match goal with
    | |- context [when ?b ?c ?m0] =>
        pose proof (guarded_store_no_null res
          ((- inverse_range_prior + landmark)
           * (weight / (epsilon + sigma)))%S m0) as H1;
        destruct (when b c m0) as [[] m1|f1] eqn:E1
    end; [| intros H; apply H1; exact H].
    unfold bind at 1.
    match goal with
    | |- context [when ?b ?c m1] =>
        pose proof (guarded_store_no_null jacobian
          (weight / (epsilon + sigma))%S m1) as H2;
        destruct (when b c m1) as [[] m2|f2] eqn:E2
    end; [| intros H; apply H2; exact H].
    unfold bind at 1.
    match goal with
    | |- context [when ?b ?c m2] =>
        pose proof (guarded_store_no_null hessian
          ((weight * weight) / ((epsilon + sigma) * (epsilon + sigma)))%S m2) as H3;
        destruct (when b c m2) as [[] m3|f3] eqn:E3
    end; [| intros H; apply H3; exact H].
    apply guarded_store_no_null.
  - rewrite !andb_true_iff. intros (((A1 & A2) & A3) & A4).
    eexists. split; [by apply LandmarkPriorFactor_run |].
    intros a. cbn [heap]. rewrite !lookup_write. reflexivity.
Qed.

Lemma LandmarkPriorFactor_null_safe_witness :
  allocated (heap two_matrices) nullptr && allocated (heap two_matrices) (Some 2%positive)
  && allocated (heap two_matrices) nullptr && allocated (heap two_matrices) nullptr = true
  /\ exists m',
       LandmarkPriorFactor (Num 0) (Num 3) (Num 2) (Num (1 # 2)) (Num (1 # 1000000000))
         nullptr (Some 2%positive) nullptr nullptr two_matrices = Done tt m'
       /\ heap m' !! 1%positive = Some (mkMatrix11 (Num 7))
       /\ heap m' !! 2%positive
          = Some (mkMatrix11 (jacobian_term (Num 2) (Num (1 # 2)) (Num (1 # 1000000000)))).
Proof.
  split; [reflexivity |].
  destruct (proj2 (LandmarkPriorFactor_null_safe
                     (Num 0) (Num 3) (Num 2) (Num (1 # 2)) (Num (1 # 1000000000))
                     nullptr (Some 2%positive) nullptr nullptr two_matrices)
                  eq_refl) as (m' & Hrun & Hheap).
  exists m'. split; [exact Hrun |].
  split; [exact (Hheap 1%positive) | exact (Hheap 2%positive)].
Defined.

(** ** Dependence of the Jacobian and the Hessian on the inputs *)

(** C9. Two calls that agree on weight, sigma and epsilon leave the same
    value in their jacobian output and the same value in their hessian
    output, whatever the landmarks, the priors, the stores and the output
    pointers of the two calls. *)
Theorem LandmarkPriorFactor_jacobian_hessian_constant
    {Scalar : Type} {ops : Arith Scalar}
    (landmark1 inverse_range_prior1 landmark2 inverse_range_prior2 : Scalar)
    (weight sigma epsilon : Scalar)
    (res1 rhs1 res2 rhs2 : ptr) (aj1 ah1 aj2 ah2 : addr) (m1 m2 : machine Scalar) :
  outputs_ok m1 res1 (Some aj1) (Some ah1) rhs1 = true ->
  outputs_ok m2 res2 (Some aj2) (Some ah2) rhs2 = true ->
  exists (m1' m2' : machine Scalar) (j h : Scalar),
    LandmarkPriorFactor landmark1 inverse_range_prior1 weight sigma epsilon
      res1 (Some aj1) (Some ah1) rhs1 m1 = Done tt m1'
    /\ LandmarkPriorFactor landmark2 inverse_range_prior2 weight sigma epsilon
         res2 (Some aj2) (Some ah2) rhs2 m2 = Done tt m2'
    /\ output m1' (Some aj1) = Some j /\ output m2' (Some aj2) = Some j
    /\ output m1' (Some ah1) = Some h /\ output m2' (Some ah2) = Some h.
Proof.
  intros Hok1 Hok2.
  destruct (LandmarkPriorFactor_outputs landmark1 inverse_range_prior1 weight sigma
              epsilon _ _ _ _ _ Hok1) as (m1' & Hrun1 & _ & Hj1 & Hh1 & _).
  destruct (LandmarkPriorFactor_outputs landmark2 inverse_range_prior2 weight sigma
              epsilon _ _ _ _ _ Hok2) as (m2' & Hrun2 & _ & Hj2 & Hh2 & _).
  exists m1', m2', (jacobian_term weight sigma epsilon),
    (hessian_term weight sigma epsilon).
  repeat split; assumption.
Qed.

Lemma LandmarkPriorFactor_jacobian_hessian_constant_witness :
  outputs_ok four_matrices (Some 1%positive) (Some 2%positive)
    (Some 3%positive) (Some 4%positive) = true
  /\ outputs_ok four_matrices nullptr (Some 4%positive) (Some 1%positive) nullptr = true
  /\ exists (m1' m2' : machine Exact.t) (j h : Exact.t),
       LandmarkPriorFactor (Num 0) (Num 3) (Num 2) (Num (1 # 2)) (Num (1 # 1000000000))
         (Some 1%positive) (Some 2%positive) (Some 3%positive) (Some 4%positive)
         four_matrices = Done tt m1'
       /\ LandmarkPriorFactor (Num 5) (Num (-7)) (Num 2) (Num (1 # 2))
            (Num (1 # 1000000000))
            nullptr (Some 4%positive) (Some 1%positive) nullptr
            four_matrices = Done tt m2'
       /\ output m1' (Some 2%positive) = Some j /\ output m2' (Some 4%positive) = Some j
       /\ output m1' (Some 3%positive) = Some h /\ output m2' (Some 1%positive) = Some h.
Proof.
  split; [reflexivity |]. split; [reflexivity |].
  exact (LandmarkPriorFactor_jacobian_hessian_constant
           (Num 0) (Num 3) (Num 5) (Num (-7)) (Num 2) (Num (1 # 2))
           (Num (1 # 1000000000))
           (Some 1%positive) (Some 4%positive) nullptr nullptr
           2%positive 3%positive 4%positive 1%positive
           four_matrices four_matrices eq_refl eq_refl).
Defined.

(** ** Exact arithmetic *)

Lemma is_zero_true q : Exact.is_zero q = true <-> q == 0.
Proof. unfold Exact.is_zero. apply Qeq_bool_iff. Qed.

Lemma is_zero_false q : Exact.is_zero q = false <-> ~ q == 0.
Proof.
  rewrite <- is_zero_true. destruct (Exact.is_zero q); split; congruence.
Qed.

Lemma is_zero_square q : Exact.is_zero (q * q) = Exact.is_zero q.
Proof.
  destruct (Exact.is_zero q) eqn:E.
  - apply is_zero_true. apply is_zero_true in E. rewrite E. ring.
  - apply is_zero_false. apply is_zero_false in E. intros H.
    apply Qmult_integral in H. tauto.
Qed.

#[global] Instance scalar_eq_equiv : Equivalence Exact.eq.
Proof.
  split.
  - intros [x|]; simpl; [reflexivity | exact I].
  - intros [x|] [y|]; simpl; auto. intros H. symmetry. exact H.
  - intros [x|] [y|] [z|]; simpl; try tauto. intros H1 H2.
    rewrite H1. exact H2.
Qed.

Lemma swap_denominator (s e : Q) : ~ s + e == 0 -> ~ e + s == 0.
Proof. intros Hne H. apply Hne. rewrite <- H. ring. Qed.

Lemma terms_defined (x mu w s e : Q) :
  ~ s + e == 0 ->
  res_term (Num x) (Num mu) (Num w) (Num s) (Num e)
    = Num ((- mu + x) * (w / (e + s)))
  /\ jacobian_term (Num w) (Num s) (Num e) = Num (w / (e + s))
  /\ hessian_term (Num w) (Num s) (Num e) = Num (w * w / ((e + s) * (e + s)))
  /\ rhs_term (Num x) (Num mu) (Num w) (Num s) (Num e)
    = Num ((- mu + x) * (w * w / ((e + s) * (e + s)))).
Proof.
  intros Hne.
  assert (Hz : Exact.is_zero (e + s) = false).
  { apply is_zero_false. by apply swap_denominator. }
  unfold res_term, jacobian_term, hessian_term, rhs_term. cbn.
  rewrite is_zero_square, Hz. auto.
Qed.

Lemma terms_undefined (x mu w s e : Q) :
  s + e == 0 ->
  res_term (Num x) (Num mu) (Num w) (Num s) (Num e) = Undef
  /\ jacobian_term (Num w) (Num s) (Num e) = Undef
  /\ hessian_term (Num w) (Num s) (Num e) = Undef
  /\ rhs_term (Num x) (Num mu) (Num w) (Num s) (Num e) = Undef.
Proof.
  intros He.
  assert (Hz : Exact.is_zero (e + s) = true).
  { apply is_zero_true. rewrite <- He. ring. }
  unfold res_term, jacobian_term, hessian_term, rhs_term. cbn.
  rewrite is_zero_square, Hz. auto.
Qed.

(** The normal-equation identities between the four terms. *)
Lemma hessian_term_square (w s e : Exact.t) :
  hessian_term w s e =s= (jacobian_term w s e * jacobian_term w s e)%S.
Proof.
  unfold hessian_term, jacobian_term.
  destruct w as [w|], s as [s|], e as [e|]; cbn; try exact I.
  rewrite is_zero_square.
  destruct (Exact.is_zero (e + s)) eqn:Hz; cbn; [exact I |].
  apply is_zero_false in Hz. field. exact Hz.
Qed.

Lemma rhs_term_product (x mu w s e : Exact.t) :
  rhs_term x mu w s e =s= (jacobian_term w s e * res_term x mu w s e)%S.
Proof.
  unfold rhs_term, jacobian_term, res_term.
  destruct x as [x|], mu as [mu|], w as [w|], s as [s|], e as [e|];
    cbn; try exact I;
    try (rewrite ?is_zero_square; destruct (Exact.is_zero _); exact I).
  rewrite is_zero_square.
  destruct (Exact.is_zero (e + s)) eqn:Hz; cbn; [exact I |].
  apply is_zero_false in Hz. field. exact Hz.
Qed.

(** The outputs of a call on rationals, with [sigma + epsilon] not zero. *)
Lemma LandmarkPriorFactor_numbers (x mu w s e : Q)
    (res jacobian hessian rhs : ptr) (m : machine Exact.t) :
  ~ s + e == 0 ->
  outputs_ok m res jacobian hessian rhs = true ->
  exists m' : machine Exact.t,
    LandmarkPriorFactor (Num x) (Num mu) (Num w) (Num s) (Num e)
      res jacobian hessian rhs m = Done tt m'
    /\ output m' res = requested res (Num ((- mu + x) * (w / (e + s))))
    /\ output m' jacobian = requested jacobian (Num (w / (e + s)))
    /\ output m' hessian = requested hessian (Num (w * w / ((e + s) * (e + s))))
    /\ output m' rhs
       = requested rhs (Num ((- mu + x) * (w * w / ((e + s) * (e + s))))).
Proof.
  intros Hne Hok.
  destruct (LandmarkPriorFactor_outputs (Num x) (Num mu) (Num w) (Num s) (Num e)
              _ _ _ _ _ Hok) as (m' & Hrun & Hr & Hj & Hh & Hg & _).
  destruct (terms_defined x mu w s e Hne) as (Tr & Tj & Th & Tg).
  rewrite Tr in Hr. rewrite Tj in Hj. rewrite Th in Hh. rewrite Tg in Hg.
  exists m'. auto.
Qed.

(** ** IEEE 754 arithmetic *)

(** [- mu + mu] is [+0] for every number [mu] of the format. *)
Lemma ieee_sub_self (f : IEEE.format) (mu : spec_float) :
  IEEE.is_finite mu = true ->
  IEEE.add f (IEEE.neg mu) mu = S754_zero false.
Proof.
  destruct mu as [s | s | | s m e]; try discriminate; intros _.
  - by destruct s.
  - unfold IEEE.add, IEEE.neg, SFopp, SFadd.
    rewrite Z.min_id. unfold shl_align. rewrite Z.sub_diag. cbn [fst].
    destruct s; cbn [negb cond_Zopp]; rewrite ?Z.add_opp_diag_l, ?Z.add_opp_diag_r;
      reflexivity.
Qed.

(** A zero times a number of the format is a zero. *)
Lemma ieee_mul_zero_l (f : IEEE.format) (z t : spec_float) :
  IEEE.is_zero z = true -> IEEE.is_finite t = true ->
  IEEE.is_zero (IEEE.mul f z t) = true.
Proof.
  destruct z; try discriminate. destruct t; try discriminate; reflexivity.
Qed.

(** The square of a zero is a zero: a square that is not zero is the
    square of a number that is not zero. *)
Lemma ieee_square_zero (f : IEEE.format) (d : spec_float) :
  IEEE.is_zero d = true -> IEEE.is_zero (IEEE.mul f d d) = true.
Proof. destruct d; try discriminate; reflexivity. Qed.

Lemma binary_round_aux_sign (prec emax : Z) (mx ex : Z) (lx : location) :
  IEEE.is_negative (binary_round_aux prec emax false mx ex lx) = false.
Proof.
  unfold binary_round_aux.
  destruct (shr_fexp prec emax mx ex lx) as [mrs' e'].
  destruct (shr_fexp prec emax _ e' loc_Exact) as [mrs'' e''].
  destruct (shr_m mrs''); [reflexivity | | reflexivity].
  destruct (Z.leb _ _); reflexivity.
Qed.

(** A square is never negative. *)
Lemma ieee_square_sign (f : IEEE.format) (w : spec_float) :
  IEEE.is_negative (IEEE.mul f w w) = false.
Proof.
  destruct w as [s | s | | s m e];
    [by destruct s | by destruct s | reflexivity |].
  unfold IEEE.mul, SFmul. replace (xorb s s) with false by (by destruct s).
  apply binary_round_aux_sign.
Qed.

(** Neither is the quotient of two numbers that are not negative. *)
Lemma ieee_div_sign (f : IEEE.format) (a b : spec_float) :
  IEEE.is_negative a = false -> IEEE.is_negative b = false ->
  IEEE.is_negative (IEEE.div f a b) = false.
Proof.
  destruct a as [sa | sa | | sa ma ea], b as [sb | sb | | sb mb eb];
    cbn [IEEE.is_negative]; intros Ha Hb; subst; try reflexivity.
  unfold IEEE.div, SFdiv. cbn [xorb].
  destruct (SFdiv_core_binary _ _ _ _ _ _) as [[mz ez] lz].
  apply binary_round_aux_sign.
Qed.

(** The error of a residual that is a zero is [+0]. *)
Lemma ieee_error_zero (f : IEEE.format) (r : spec_float) :
  IEEE.is_zero r = true ->
  error (ops := IEEE.arith f) [r] = S754_zero false.
Proof.
  destruct r as [s | | |]; try discriminate. intros _.
  destruct f, s; vm_compute; reflexivity.
Qed.

(** A number that is not negative does not compare less than zero. *)
Lemma ieee_not_negative_ltb (h : spec_float) :
  IEEE.is_negative h = false -> SFltb h (S754_zero false) = false.
Proof.
  destruct h as [s | s | | s m e]; cbn; intros Hs; try subst; reflexivity.
Qed.

(** Rounding commutes with the change of sign. *)
Lemma binary_round_aux_opp (prec emax : Z) (s : bool) (mx ex : Z) (lx : location) :
  binary_round_aux prec emax (negb s) mx ex lx
  = SFopp (binary_round_aux prec emax s mx ex lx).
Proof.
  unfold binary_round_aux.
  destruct (shr_fexp prec emax mx ex lx) as [mrs' e'].
  destruct (shr_fexp prec emax _ e' loc_Exact) as [mrs'' e''].
  destruct (shr_m mrs''); [reflexivity | | reflexivity].
  destruct (Z.leb _ _); reflexivity.
Qed.

Lemma xorb_negb_l (a b : bool) : xorb (negb a) b = negb (xorb a b).
Proof. by destruct a, b. Qed.

Lemma xorb_negb_r (a b : bool) : xorb a (negb b) = negb (xorb a b).
Proof. by destruct a, b. Qed.

Lemma ieee_div_neg_l (f : IEEE.format) (a b : spec_float) :
  IEEE.div f (IEEE.neg a) b = IEEE.neg (IEEE.div f a b).
Proof.
  unfold IEEE.div, IEEE.neg.
  destruct a as [sa | sa | | sa ma ea], b as [sb | sb | | sb mb eb];
    cbn [SFopp SFdiv]; rewrite ?xorb_negb_l; try reflexivity.
  destruct (SFdiv_core_binary _ _ _ _ _ _) as [[mz ez] lz].
  apply binary_round_aux_opp.
Qed.

Lemma ieee_mul_neg_r (f : IEEE.format) (a b : spec_float) :
  IEEE.mul f a (IEEE.neg b) = IEEE.neg (IEEE.mul f a b).
Proof.
  unfold IEEE.mul, IEEE.neg.
  destruct a as [sa | sa | | sa ma ea], b as [sb | sb | | sb mb eb];
    cbn [SFopp SFmul]; rewrite ?xorb_negb_r; try reflexivity.
  apply binary_round_aux_opp.
Qed.

Lemma ieee_mul_neg_neg (f : IEEE.format) (a : spec_float) :
  IEEE.mul f (IEEE.neg a) (IEEE.neg a) = IEEE.mul f a a.
Proof.
  unfold IEEE.mul, IEEE.neg.
  destruct a as [sa | sa | | sa ma ea]; cbn [SFopp SFmul];
    rewrite ?xorb_negb_l, ?xorb_negb_r, ?negb_involutive; reflexivity.
Qed.

(** ** The residual of the prior *)

(** C1, amended. The residual output is [(- prior + landmark) * (weight /
    (epsilon + sigma))], evaluated in the arithmetic of [Scalar]. In exact
    arithmetic, with [sigma + epsilon] not zero, this is
    [weight * (landmark - prior) / (sigma + epsilon)], which is
    [weight * (landmark - prior) / sigma] when [epsilon] is zero, and it
    is 0 at [landmark = prior]. In [float] and in [double], at
    [landmark = prior] the residual is a zero, and the error of the
    one-factor problem [+0], whenever the prior and the quotient
    [weight / (epsilon + sigma)] are finite. *)
Theorem LandmarkPriorFactor_residual :
  (forall (Scalar : Type) (ops : Arith Scalar)
          (landmark inverse_range_prior weight sigma epsilon : Scalar)
          (a : addr) (jacobian hessian rhs : ptr) (m : machine Scalar),
      outputs_ok m (Some a) jacobian hessian rhs = true ->
      exists m' : machine Scalar,
        LandmarkPriorFactor landmark inverse_range_prior weight sigma epsilon
          (Some a) jacobian hessian rhs m = Done tt m'
        /\ output m' (Some a)
           = Some ((- inverse_range_prior + landmark) * (weight / (epsilon + sigma)))%S)
  /\ (forall (x mu w s e : Q) (a : addr) (jacobian hessian rhs : ptr)
             (m : machine Exact.t),
         ~ s + e == 0 ->
         outputs_ok m (Some a) jacobian hessian rhs = true ->
         exists (m' : machine Exact.t) (r : Q),
           LandmarkPriorFactor (Num x) (Num mu) (Num w) (Num s) (Num e)
             (Some a) jacobian hessian rhs m = Done tt m'
           /\ output m' (Some a) = Some (Num r)
           /\ r == w * (x - mu) / (s + e)
           /\ (e == 0 -> r == w * (x - mu) / s)
           /\ (x == mu -> r == 0 /\ error [Num r] =s= Num 0))
  /\ (forall (f : IEEE.format) (mu w s e : spec_float)
             (a : addr) (jacobian hessian rhs : ptr) (m : machine spec_float),
         IEEE.is_finite mu = true ->
         IEEE.is_finite (IEEE.div f w (IEEE.add f e s)) = true ->
         outputs_ok m (Some a) jacobian hessian rhs = true ->
         exists (m' : machine spec_float) (r : spec_float),
           LandmarkPriorFactor (ops := IEEE.arith f) mu mu w s e
             (Some a) jacobian hessian rhs m = Done tt m'
           /\ output m' (Some a) = Some r
           /\ IEEE.is_zero r = true
           /\ error (ops := IEEE.arith f) [r] = S754_zero false).
Proof.
  split; [| split].
  - intros Scalar ops landmark inverse_range_prior weight sigma epsilon
      a jacobian hessian rhs m Hok.
    destruct (LandmarkPriorFactor_outputs landmark inverse_range_prior weight sigma
                epsilon _ _ _ _ _ Hok) as (m' & Hrun & Hres & _).
    exists m'. split; [exact Hrun | exact Hres].
  - intros x mu w s e a jacobian hessian rhs m Hne Hok.
    destruct (LandmarkPriorFactor_numbers x mu w s e _ _ _ _ _ Hne Hok)
      as (m' & Hrun & Hres & _).
    exists m', ((- mu + x) * (w / (e + s))).
    split; [exact Hrun |]. split; [exact Hres |].
    pose proof (swap_denominator s e Hne) as Hne'.
    split; [field; exact Hne |].
    split.
    + intros He. assert (~ s == 0) by (intros H; apply Hne; rewrite H, He; ring).
      rewrite He. field. assumption.
    + intros Hx.
      assert (Hr : (- mu + x) * (w / (e + s)) == 0).
      { rewrite Hx. field. exact Hne'. }
      split; [exact Hr |]. cbn. rewrite Hr. ring.
  - intros f mu w s e a jacobian hessian rhs m Hmu Hquot Hok.
    destruct (LandmarkPriorFactor_outputs (ops := IEEE.arith f) mu mu w s e
                _ _ _ _ _ Hok) as (m' & Hrun & Hres & _).
    exists m'. eexists. split; [exact Hrun |]. split; [exact Hres |].
    assert (Hz : IEEE.is_zero
                   (res_term (ops := IEEE.arith f) mu mu w s e) = true).
    { unfold res_term. cbn [Sadd Sneg Smul Sdiv IEEE.arith].
      rewrite ieee_sub_self by exact Hmu.
      apply ieee_mul_zero_l; [reflexivity | exact Hquot]. }
    split; [exact Hz |]. by apply ieee_error_zero.
Qed.

Lemma LandmarkPriorFactor_residual_witness :
  (~ (1 # 2) + (1 # 1000000000) == 0
   /\ outputs_ok one_matrix (Some 1%positive) nullptr nullptr nullptr = true
   /\ exists (m' : machine Exact.t) (r : Q),
        LandmarkPriorFactor (Num 3) (Num 3) (Num 2) (Num (1 # 2)) (Num (1 # 1000000000))
          (Some 1%positive) nullptr nullptr nullptr one_matrix = Done tt m'
        /\ output m' (Some 1%positive) = Some (Num r)
        /\ r == 0 /\ error [Num r] =s= Num 0)
  /\ (IEEE.is_finite (double 3) = true
      /\ IEEE.is_finite
           (IEEE.div IEEE.binary64 (double 2)
              (IEEE.add IEEE.binary64 (double (1 # 1000000000)) (double (1 # 2))))
         = true
      /\ outputs_ok four_floats (Some 1%positive) nullptr nullptr nullptr = true
      /\ exists (m' : machine spec_float) (r : spec_float),
           LandmarkPriorFactor (ops := IEEE.arith IEEE.binary64)
             (double 3) (double 3) (double 2) (double (1 # 2)) (double (1 # 1000000000))
             (Some 1%positive) nullptr nullptr nullptr four_floats = Done tt m'
           /\ output m' (Some 1%positive) = Some r
           /\ IEEE.is_zero r = true
           /\ error (ops := IEEE.arith IEEE.binary64) [r] = S754_zero false).
Proof.
  split.
  - assert (H1 : ~ (1 # 2) + (1 # 1000000000) == 0) by (intros H; discriminate H).
    split; [exact H1 |]. split; [reflexivity |].
    destruct (proj1 (proj2 LandmarkPriorFactor_residual)
                3 3 2 (1 # 2) (1 # 1000000000)
                1%positive nullptr nullptr nullptr one_matrix H1 eq_refl)
      as (m' & r & Hrun & Hout & _ & _ & Hopt).
    exists m', r. split; [exact Hrun |]. split; [exact Hout |].
    apply Hopt. reflexivity.
  - assert (H1 : IEEE.is_finite (double 3) = true) by (vm_compute; reflexivity).
    assert (H2 : IEEE.is_finite
                   (IEEE.div IEEE.binary64 (double 2)
                      (IEEE.add IEEE.binary64 (double (1 # 1000000000)) (double (1 # 2))))
                 = true) by (vm_compute; reflexivity).
    split; [exact H1 |]. split; [exact H2 |]. split; [reflexivity |].
    exact (proj2 (proj2 LandmarkPriorFactor_residual)
             IEEE.binary64 (double 3) (double 2) (double (1 # 2)) (double (1 # 1000000000))
             1%positive nullptr nullptr nullptr four_floats H1 H2 eq_refl).
Defined.

(** C1 as stated fails away from the optimum: on the starting point of the
    one-factor problem (landmark 0, prior 3, weight 2, sigma 1/2, epsilon
    1e-9) the residual output is not [w * (x - mu) / sigma = -12], neither
    in exact arithmetic nor in [double]. *)
Lemma LandmarkPriorFactor_residual_not_over_sigma :
  (exists (m' : machine Exact.t) (r : Q),
      LandmarkPriorFactor (Num 0) (Num 3) (Num 2) (Num (1 # 2)) (Num (1 # 1000000000))
        (Some 1%positive) nullptr nullptr nullptr one_matrix = Done tt m'
      /\ output m' (Some 1%positive) = Some (Num r)
      /\ ~ r == 2 * (0 - 3) / (1 # 2))
  /\ (exists (m' : machine spec_float) (r : spec_float),
         LandmarkPriorFactor (ops := IEEE.arith IEEE.binary64)
           (double 0) (double 3) (double 2) (double (1 # 2)) (double (1 # 1000000000))
           (Some 1%positive) nullptr nullptr nullptr four_floats = Done tt m'
         /\ output m' (Some 1%positive) = Some r
         /\ IEEE.div IEEE.binary64
              (IEEE.mul IEEE.binary64 (double 2)
                 (IEEE.add IEEE.binary64 (double 0) (IEEE.neg (double 3))))
              (double (1 # 2))
            = double (-12)
         /\ r <> double (-12)
         /\ SFeqb r (double (-12)) = false).
Proof.
  split.
  - eexists. eexists. split; [reflexivity |]. split; [reflexivity |].
    intros H. discriminate H.
  - eexists. eexists. split; [vm_compute; reflexivity |].
    split; [vm_compute; reflexivity |].
    split; [vm_compute; reflexivity |].
    split; [vm_compute; discriminate | vm_compute; reflexivity].
Qed.

(** ** The normal equations *)

(** C2. For every input, the four outputs of a call carry values [r], [j],
    [h], [g] with [h = j * j] and [g = j * r] in exact arithmetic. When the
    inputs are numbers and [sigma + epsilon] is not zero these values are
    numbers: [j] is [weight / (sigma + epsilon)], [r] is
    [(landmark - prior) * j], [h] is [j * j] and [g] is [j * r]. *)
Theorem LandmarkPriorFactor_normal_equations
    (landmark inverse_range_prior weight sigma epsilon : Exact.t)
    (res jacobian hessian rhs : ptr) (m : machine Exact.t) :
  outputs_ok m res jacobian hessian rhs = true ->
  exists (m' : machine Exact.t) (r j h g : Exact.t),
    LandmarkPriorFactor landmark inverse_range_prior weight sigma epsilon
      res jacobian hessian rhs m = Done tt m'
    /\ output m' res = requested res r
    /\ output m' jacobian = requested jacobian j
    /\ output m' hessian = requested hessian h
    /\ output m' rhs = requested rhs g
    /\ h =s= (j * j)%S
    /\ g =s= (j * r)%S
    /\ (forall x mu w s e : Q,
          landmark = Num x -> inverse_range_prior = Num mu -> weight = Num w ->
          sigma = Num s -> epsilon = Num e ->
          ~ s + e == 0 ->
          exists rq jq hq gq : Q,
            r = Num rq /\ j = Num jq /\ h = Num hq /\ g = Num gq
            /\ jq == w / (s + e)
            /\ rq == (x - mu) * jq
            /\ hq == jq * jq
            /\ gq == jq * rq).
Proof.
  intros Hok.
  destruct (LandmarkPriorFactor_outputs landmark inverse_range_prior weight sigma
              epsilon _ _ _ _ _ Hok) as (m' & Hrun & Hr & Hj & Hh & Hg & _).
  exists m'. do 4 eexists.
  split; [exact Hrun |]. split; [exact Hr |]. split; [exact Hj |].
  split; [exact Hh |]. split; [exact Hg |].
  split; [apply hessian_term_square |]. split; [apply rhs_term_product |].
  intros x mu w s e -> -> -> -> -> Hne.
  destruct (terms_defined x mu w s e Hne) as (Tr & Tj & Th & Tg).
  pose proof (swap_denominator s e Hne) as Hne'.
  do 4 eexists.
  split; [exact Tr |]. split; [exact Tj |]. split; [exact Th |]. split; [exact Tg |].
  repeat split; field; assumption.
Qed.

Lemma LandmarkPriorFactor_normal_equations_witness :
  outputs_ok four_matrices (Some 1%positive) (Some 2%positive)
    (Some 3%positive) (Some 4%positive) = true
  /\ ~ (1 # 2) + (1 # 1000000000) == 0
  /\ exists (m' : machine Exact.t) (rq jq hq gq : Q),
       LandmarkPriorFactor (Num 0) (Num 3) (Num 2) (Num (1 # 2)) (Num (1 # 1000000000))
         (Some 1%positive) (Some 2%positive) (Some 3%positive) (Some 4%positive)
         four_matrices = Done tt m'
       /\ output m' (Some 1%positive) = Some (Num rq)
       /\ output m' (Some 2%positive) = Some (Num jq)
       /\ output m' (Some 3%positive) = Some (Num hq)
       /\ output m' (Some 4%positive) = Some (Num gq)
       /\ hq == jq * jq
       /\ gq == jq * rq
       /\ jq == 2 / ((1 # 2) + (1 # 1000000000)).
Proof.
  assert (Hne : ~ (1 # 2) + (1 # 1000000000) == 0) by (intros H; discriminate H).
  split; [reflexivity |]. split; [exact Hne |].
  destruct (LandmarkPriorFactor_normal_equations
              (Num 0) (Num 3) (Num 2) (Num (1 # 2)) (Num (1 # 1000000000))
              (Some 1%positive) (Some 2%positive) (Some 3%positive) (Some 4%positive)
              four_matrices eq_refl)
    as (m' & r & j & h & g & Hrun & Hr & Hj & Hh & Hg & _ & _ & Hnum).
  destruct (Hnum 0 3 2 (1 # 2) (1 # 1000000000) eq_refl eq_refl eq_refl eq_refl eq_refl Hne)
    as (rq & jq & hq & gq & -> & -> & -> & -> & Ej & _ & Eh & Eg).
  exists m', rq, jq, hq, gq. auto 10.
Defined.

(** ** The covariance of the one-factor problem *)

(** C4. In exact arithmetic, with [weight] and [sigma + epsilon] not zero,
    the hessian output is [(weight / (sigma + epsilon))^2] and the
    covariance of the single key, the inverse of the 1x1 Hessian made of
    that output, is [((sigma + epsilon) / weight)^2]. It exceeds
    [(sigma / weight)^2] by [epsilon * (2 sigma + epsilon) / weight^2]: with
    weight 2 and sigma 1/2 it is 0.0625 when [epsilon] is 0 and within 1e-9
    of 0.0625 for a non-negative [epsilon] up to 1e-9. *)
Theorem LandmarkPriorFactor_covariance
    (x mu w s e : Q) (res jacobian rhs : ptr) (a : addr) (m : machine Exact.t) :
  ~ w == 0 -> ~ s + e == 0 ->
  outputs_ok m res jacobian (Some a) rhs = true ->
  exists (m' : machine Exact.t) (H : Matrix11 Exact.t) (h c : Q),
    LandmarkPriorFactor (Num x) (Num mu) (Num w) (Num s) (Num e)
      res jacobian (Some a) rhs m = Done tt m'
    /\ heap m' !! a = Some H
    /\ coeff00 H = Num h
    /\ h == (w / (s + e)) * (w / (s + e))
    /\ inverse11 H = mkMatrix11 (Num c)
    /\ c == ((s + e) / w) * ((s + e) / w)
    /\ c - (s / w) * (s / w) == e * (2 * s + e) / (w * w)
    /\ (e == 0 -> c == (s / w) * (s / w))
    /\ (w == 2 -> s == 1 # 2 ->
        (s / w) * (s / w) == 625 # 10000
        /\ (0 <= e -> e <= 1 # 1000000000 ->
            Qabs (c - (625 # 10000)) < 1 # 1000000000)).
Proof.
  intros Hw Hne Hok.
  destruct (LandmarkPriorFactor_numbers x mu w s e _ _ _ _ _ Hne Hok)
    as (m' & Hrun & _ & _ & Hh & _).
  pose proof (swap_denominator s e Hne) as Hne'.
  set (h := w * w / ((e + s) * (e + s))) in *.
  assert (Hh0 : ~ h == 0).
  { unfold h. intros H. apply Hw.
    assert (H1 : w * w == 0).
    { rewrite <- (Qmult_0_l ((e + s) * (e + s))). rewrite <- H. field. exact Hne'. }
    apply Qmult_integral in H1. tauto. }
  cbn [output requested is_null] in Hh.
  destruct (heap m' !! a) as [H|] eqn:EH; [| discriminate].
  cbn in Hh. injection Hh as Hh.
  assert (Hc : 1 / h == ((s + e) / w) * ((s + e) / w)).
  { unfold h. field. auto. }
  assert (Hdiff : 1 / h - (s / w) * (s / w) == e * (2 * s + e) / (w * w)).
  { rewrite Hc. field. exact Hw. }
  exists m', H, h, (1 / h).
  split; [exact Hrun |]. split; [exact EH |]. split; [exact Hh |].
  split; [unfold h; field; exact Hne |].
  split.
  { unfold inverse11. rewrite Hh. cbn.
    apply is_zero_false in Hh0. rewrite Hh0. reflexivity. }
  split; [exact Hc |]. split; [exact Hdiff |].
  split.
  { intros He. rewrite Hc, He. field. exact Hw. }
  intros Ew Es. split.
  { rewrite Ew, Es. reflexivity. }
  intros He0 He1.
  assert (Hd : 1 / h - (625 # 10000) == e * (1 + e) / 4).
  { rewrite Hc, Ew, Es. field. }
  rewrite Hd.
  assert (Hnum : 0 <= e * (1 + e)).
  { apply Qmult_le_0_compat; [exact He0 |].
    apply Qle_trans with (0 + 0); [discriminate |].
    apply Qplus_le_compat; [discriminate | exact He0]. }
  assert (Hup : e * (1 + e) <= (1 # 1000000000) * (1 + (1 # 1000000000))).
  { apply Qle_trans with (e * (1 + (1 # 1000000000))).
    - rewrite !(Qmult_comm e). apply Qmult_le_compat_r; [| exact He0].
      apply Qplus_le_compat; [apply Qle_refl | exact He1].
    - apply Qmult_le_compat_r; [exact He1 | discriminate]. }
  rewrite Qabs_pos.
  - apply Qle_lt_trans with ((1 # 1000000000) * (1 + (1 # 1000000000)) / 4).
    + apply Qmult_le_compat_r; [exact Hup | discriminate].
    + reflexivity.
  - apply Qmult_le_0_compat; [exact Hnum | discriminate].
Qed.

Lemma LandmarkPriorFactor_covariance_witness :
  ~ 2 == 0 /\ ~ (1 # 2) + (1 # 1000000000) == 0
  /\ outputs_ok one_matrix nullptr nullptr (Some 1%positive) nullptr = true
  /\ exists (m' : machine Exact.t) (H : Matrix11 Exact.t) (h c : Q),
       LandmarkPriorFactor (Num 3) (Num 3) (Num 2) (Num (1 # 2)) (Num (1 # 1000000000))
         nullptr nullptr (Some 1%positive) nullptr one_matrix = Done tt m'
       /\ heap m' !! 1%positive = Some H
       /\ coeff00 H = Num h
       /\ inverse11 H = mkMatrix11 (Num c)
       /\ c == (((1 # 2) + (1 # 1000000000)) / 2) * (((1 # 2) + (1 # 1000000000)) / 2)
       /\ Qabs (c - (625 # 10000)) < 1 # 1000000000.
Proof.
  assert (H1 : ~ 2 == 0) by (intros H; discriminate H).
  assert (H2 : ~ (1 # 2) + (1 # 1000000000) == 0) by (intros H; discriminate H).
  split; [exact H1 |]. split; [exact H2 |]. split; [reflexivity |].
  destruct (LandmarkPriorFactor_covariance 3 3 2 (1 # 2) (1 # 1000000000)
              nullptr nullptr nullptr 1%positive one_matrix H1 H2 eq_refl)
    as (m' & H & h & c & Hrun & Hheap & Hh & _ & Hinv & Hc & _ & _ & Hnear).
  exists m', H, h, c.
  split; [exact Hrun |]. split; [exact Hheap |]. split; [exact Hh |].
  split; [exact Hinv |]. split; [exact Hc |].
  apply Hnear; [reflexivity | reflexivity | discriminate | discriminate].
Defined.

(** ** Divisions *)

(** C10, amended. In every arithmetic a call performs two divisions, the
    first by [epsilon + sigma] and the second by the square of that sum.
    In exact arithmetic, when [sigma + epsilon] is not zero -- in
    particular when [sigma] is 0 and [epsilon] is positive -- neither
    denominator is zero and all four outputs are defined numbers. In
    [float] and in [double] no division is by zero as long as the computed
    square is not zero: the sum is then not zero either. *)
Theorem LandmarkPriorFactor_divisions :
  (forall (Scalar : Type) (ops : Arith Scalar)
          (landmark inverse_range_prior weight sigma epsilon : Scalar)
          (res jacobian hessian rhs : ptr) (m : machine Scalar),
      outputs_ok m res jacobian hessian rhs = true ->
      exists m' : machine Scalar,
        LandmarkPriorFactor landmark inverse_range_prior weight sigma epsilon
          res jacobian hessian rhs m = Done tt m'
        /\ divisions m'
           = divisions m
             ++ [(epsilon + sigma)%S; ((epsilon + sigma) * (epsilon + sigma))%S])
  /\ (forall (x mu w s e : Q) (res jacobian hessian rhs : ptr) (m : machine Exact.t),
         outputs_ok m res jacobian hessian rhs = true ->
         exists (m' : machine Exact.t) (d1 d2 : Q),
           LandmarkPriorFactor (Num x) (Num mu) (Num w) (Num s) (Num e)
             res jacobian hessian rhs m = Done tt m'
           /\ divisions m' = divisions m ++ [Num d1; Num d2]
           /\ d1 == s + e
           /\ d2 == (s + e) * (s + e)
           /\ (~ s + e == 0 \/ (s == 0 /\ 0 < e) ->
               ~ d1 == 0 /\ ~ d2 == 0
               /\ exists r j h g : Q,
                    output m' res = requested res (Num r)
                    /\ output m' jacobian = requested jacobian (Num j)
                    /\ output m' hessian = requested hessian (Num h)
                    /\ output m' rhs = requested rhs (Num g)))
  /\ (forall (f : IEEE.format) (x mu w s e : spec_float)
             (res jacobian hessian rhs : ptr) (m : machine spec_float),
         outputs_ok m res jacobian hessian rhs = true ->
         exists (m' : machine spec_float) (d1 d2 : spec_float),
           LandmarkPriorFactor (ops := IEEE.arith f) x mu w s e
             res jacobian hessian rhs m = Done tt m'
           /\ divisions m' = divisions m ++ [d1; d2]
           /\ d1 = IEEE.add f e s
           /\ d2 = IEEE.mul f d1 d1
           /\ (IEEE.is_zero d2 = false -> IEEE.is_zero d1 = false)).
Proof.
  split; [| split].
  - intros Scalar ops landmark inverse_range_prior weight sigma epsilon
      res jacobian hessian rhs m Hok.
    destruct (LandmarkPriorFactor_outputs landmark inverse_range_prior weight sigma
                epsilon _ _ _ _ _ Hok) as (m' & Hrun & _ & _ & _ & _ & Hd).
    exists m'. split; [exact Hrun | exact Hd].
  - intros x mu w s e res jacobian hessian rhs m Hok.
    destruct (LandmarkPriorFactor_outputs (Num x) (Num mu) (Num w) (Num s) (Num e)
                _ _ _ _ _ Hok) as (m' & Hrun & Hr & Hj & Hh & Hg & Hd).
    exists m', (e + s), ((e + s) * (e + s)).
    split; [exact Hrun |]. split; [exact Hd |].
    split; [ring |]. split; [ring |].
    intros Hpre.
    assert (Hne : ~ s + e == 0).
    { destruct Hpre as [H | [Hs He]]; [exact H |].
      intros H. rewrite Hs in H. rewrite Qplus_0_l in H. rewrite H in He.
      exact (Qlt_irrefl 0 He). }
    pose proof (swap_denominator s e Hne) as Hne'.
    split; [exact Hne' |].
    split.
    { intros H. apply Qmult_integral in H. tauto. }
    destruct (terms_defined x mu w s e Hne) as (Tr & Tj & Th & Tg).
    rewrite Tr in Hr. rewrite Tj in Hj. rewrite Th in Hh. rewrite Tg in Hg.
    eauto 10.
  - intros f x mu w s e res jacobian hessian rhs m Hok.
    destruct (LandmarkPriorFactor_outputs (ops := IEEE.arith f) x mu w s e
                _ _ _ _ _ Hok) as (m' & Hrun & _ & _ & _ & _ & Hd).
    exists m', (IEEE.add f e s), (IEEE.mul f (IEEE.add f e s) (IEEE.add f e s)).
    split; [exact Hrun |]. split; [exact Hd |].
    split; [reflexivity |]. split; [reflexivity |].
    intros Hsq. destruct (IEEE.is_zero (IEEE.add f e s)) eqn:Hsum; [| reflexivity].
    rewrite (ieee_square_zero f _ Hsum) in Hsq. discriminate Hsq.
Qed.

Lemma LandmarkPriorFactor_divisions_witness :
  (outputs_ok four_matrices (Some 1%positive) (Some 2%positive)
     (Some 3%positive) (Some 4%positive) = true
   /\ (~ 0 + (1 # 1000000000) == 0 \/ (0 == 0 /\ 0 < 1 # 1000000000))
   /\ exists (m' : machine Exact.t) (d1 d2 : Q),
        LandmarkPriorFactor (Num 0) (Num 3) (Num 2) (Num 0) (Num (1 # 1000000000))
          (Some 1%positive) (Some 2%positive) (Some 3%positive) (Some 4%positive)
          four_matrices = Done tt m'
        /\ divisions m' = [Num d1; Num d2]
        /\ ~ d1 == 0 /\ ~ d2 == 0
        /\ exists r j h g : Q,
             output m' (Some 1%positive) = Some (Num r)
             /\ output m' (Some 2%positive) = Some (Num j)
             /\ output m' (Some 3%positive) = Some (Num h)
             /\ output m' (Some 4%positive) = Some (Num g))
  /\ (outputs_ok four_floats (Some 1%positive) (Some 2%positive)
        (Some 3%positive) (Some 4%positive) = true
      /\ exists (m' : machine spec_float) (d1 d2 : spec_float),
           LandmarkPriorFactor (ops := IEEE.arith IEEE.binary64)
             (double 0) (double 3) (double 2) (double 0) (double (1 # 1000000000))
             (Some 1%positive) (Some 2%positive) (Some 3%positive) (Some 4%positive)
             four_floats = Done tt m'
           /\ divisions m' = [d1; d2]
           /\ IEEE.is_zero d2 = false
           /\ IEEE.is_zero d1 = false).
Proof.
  split.
  - assert (Hpre : ~ 0 + (1 # 1000000000) == 0 \/ (0 == 0 /\ 0 < 1 # 1000000000)).
    { right. split; reflexivity. }
    split; [reflexivity |]. split; [exact Hpre |].
    destruct (proj1 (proj2 LandmarkPriorFactor_divisions) 0 3 2 0 (1 # 1000000000)
                (Some 1%positive) (Some 2%positive) (Some 3%positive) (Some 4%positive)
                four_matrices eq_refl)
      as (m' & d1 & d2 & Hrun & Hd & _ & _ & Hsafe).
    destruct (Hsafe Hpre) as (H1 & H2 & Hout).
    exists m', d1, d2. auto.
  - split; [reflexivity |].
    destruct (proj2 (proj2 LandmarkPriorFactor_divisions) IEEE.binary64
                (double 0) (double 3) (double 2) (double 0) (double (1 # 1000000000))
                (Some 1%positive) (Some 2%positive) (Some 3%positive) (Some 4%positive)
                four_floats eq_refl)
      as (m' & d1 & d2 & Hrun & Hd & E1 & E2 & Hsafe).
    assert (Hsq : IEEE.is_zero d2 = false).
    { rewrite E2, E1. vm_compute. reflexivity. }
    exists m', d1, d2. split; [exact Hrun |]. split; [exact Hd |].
    split; [exact Hsq | exact (Hsafe Hsq)].
Defined.

(** C10 as stated fails in [double]: with [sigma = 0] and
    [epsilon = 2^-600], a positive number, the sum is not zero but its
    square underflows to zero, so the second division is by zero, and the
    hessian and rhs outputs are infinite. *)
Lemma LandmarkPriorFactor_square_underflow :
  exists (m' : machine spec_float) (d1 d2 : spec_float),
    LandmarkPriorFactor (ops := IEEE.arith IEEE.binary64)
      (double 0) (double 3) (double 2) (double 0) (IEEE.scaled IEEE.binary64 1 (-600))
      (Some 1%positive) (Some 2%positive) (Some 3%positive) (Some 4%positive)
      four_floats = Done tt m'
    /\ SFltb (double 0) (IEEE.scaled IEEE.binary64 1 (-600)) = true
    /\ divisions m' = [d1; d2]
    /\ IEEE.is_zero d1 = false
    /\ IEEE.is_zero d2 = true
    /\ output m' (Some 3%positive) = Some (S754_infinity false)
    /\ output m' (Some 4%positive) = Some (S754_infinity true).
Proof.
  do 3 eexists.
  split; [vm_compute; reflexivity |].
  repeat split; vm_compute; reflexivity.
Qed.

(** Without the precondition the divisions are by zero: when
    [sigma + epsilon] is 0 every requested output is left undefined. *)
Remark LandmarkPriorFactor_zero_denominator
    (x mu w s e : Q) (res jacobian hessian rhs : ptr) (m : machine Exact.t) :
  s + e == 0 ->
  outputs_ok m res jacobian hessian rhs = true ->
  exists m' : machine Exact.t,
    LandmarkPriorFactor (Num x) (Num mu) (Num w) (Num s) (Num e)
      res jacobian hessian rhs m = Done tt m'
    /\ output m' res = requested res Undef
    /\ output m' jacobian = requested jacobian Undef
    /\ output m' hessian = requested hessian Undef
    /\ output m' rhs = requested rhs Undef.
Proof.
  intros Hz Hok.
  destruct (LandmarkPriorFactor_outputs (Num x) (Num mu) (Num w) (Num s) (Num e)
              _ _ _ _ _ Hok) as (m' & Hrun & Hr & Hj & Hh & Hg & _).
  destruct (terms_undefined x mu w s e Hz) as (Tr & Tj & Th & Tg).
  rewrite Tr in Hr. rewrite Tj in Hj. rewrite Th in Hh. rewrite Tg in Hg.
  exists m'. auto.
Qed.

(** ** The optimizer facade *)

(** The loop stops at the first report that is not [INIT] or [ITERATING],
    with that report as its status; without such a report in its budget
    it stops with [MAX_ITERATIONS]. *)
Lemma IterateToConvergence_first_report {Values : Type}
    (Iterate : Values -> Values * status) (n : nat) (values : Values) :
  (exists k : nat,
      (k < n)%nat
      /\ (forall i : nat, (i < k)%nat -> running (report Iterate values i) = true)
      /\ running (report Iterate values k) = false
      /\ IterateToConvergence Iterate values n
         = (values_after Iterate values (S k), report Iterate values k,
            match report Iterate values k with CONVERGED => true | _ => false end))
  \/ ((forall i : nat, (i < n)%nat -> running (report Iterate values i) = true)
      /\ IterateToConvergence Iterate values n
         = (values_after Iterate values n, MAX_ITERATIONS, false)).
Proof.
  revert values. induction n as [|n IH]; intros values.
  - right. split; [intros i Hi; lia | reflexivity].
  - assert (Hstop : running (report Iterate values 0) = false ->
                    IterateToConvergence Iterate values (S n)
                    = (values_after Iterate values 1, report Iterate values 0,
                       match report Iterate values 0 with
                       | CONVERGED => true
                       | _ => false
                       end)).
    { unfold report. cbn. destruct (Iterate values) as [values' st]. cbn.
      destruct st; (discriminate || reflexivity). }
    destruct (running (report Iterate values 0)) eqn:Hrun.
    + assert (Hgo : IterateToConvergence Iterate values (S n)
                    = IterateToConvergence Iterate (fst (Iterate values)) n).
      { unfold report in Hrun. cbn in *. destruct (Iterate values) as [values' st].
        cbn in *. destruct st; (discriminate || reflexivity). }
      rewrite Hgo.
      destruct (IH (fst (Iterate values))) as [(k & Hk & Hbefore & Hat & Heq) | [Hall Heq]].
      * left. exists (S k). split; [lia |].
        split.
        { intros [|i] Hi; [exact Hrun |]. apply (Hbefore i). lia. }
        split; [exact Hat |]. exact Heq.
      * right. split; [| exact Heq].
        intros [|i] Hi; [exact Hrun |]. apply (Hall i). lia.
    + left. exists 0%nat. split; [lia |].
      split; [intros i Hi; lia |]. split; [exact Hrun |]. apply Hstop. reflexivity.
Qed.

(** C5. [Optimize] returns true exactly when the driver left in the state
    CONVERGED, and that is when the first report of the solver that ends
    the iteration comes within the budget and is CONVERGED. A first such
    report of MAX_ITERATIONS, DIVERGED or NUMERICAL_FAILURE, or none
    within the budget (then the status is MAX_ITERATIONS), yields false. *)
Theorem Optimize_true_iff_converged {Values Linearization : Type}
    (Iterate : Values -> Values * status) (Linearize : Values -> Linearization)
    (params : optimizer_params_t)
    (values : Values) (num_iterations : Z) (best_linearization : bool) :
  let o := Optimize Iterate Linearize params values num_iterations best_linearization in
  let n := budget params num_iterations in
  (returned o = true <-> exit_status o = CONVERGED)
  /\ (returned o = true <->
      exists k : nat,
        (k < n)%nat /\ report Iterate values k = CONVERGED
        /\ forall i : nat, (i < k)%nat -> running (report Iterate values i) = true)
  /\ (forall (k : nat) (st : status),
         (k < n)%nat -> report Iterate values k = st -> running st = false ->
         (forall i : nat, (i < k)%nat -> running (report Iterate values i) = true) ->
         exit_status o = st
         /\ final_values o = values_after Iterate values (S k)
         /\ returned o = match st with CONVERGED => true | _ => false end)
  /\ ((forall i : nat, (i < n)%nat -> running (report Iterate values i) = true) ->
      exit_status o = MAX_ITERATIONS
      /\ final_values o = values_after Iterate values n
      /\ returned o = false)
  /\ match exit_status o with
     | CONVERGED => returned o = true
     | MAX_ITERATIONS | DIVERGED | NUMERICAL_FAILURE => returned o = false
     | INIT | ITERATING => False
     end.
Proof.
  intros o n. unfold o, Optimize. fold n.
  destruct (IterateToConvergence_first_report Iterate n values)
    as [(k & Hk & Hbefore & Hat & Heq) | [Hall Heq]]; rewrite Heq; cbn.
  - assert (Huniq : forall k' : nat,
               (k' < n)%nat -> running (report Iterate values k') = false ->
               (forall i : nat, (i < k')%nat -> running (report Iterate values i) = true) ->
               k' = k).
    { intros k' _ Hat' Hbefore'.
      destruct (Nat.lt_trichotomy k' k) as [Hlt | [Heq' | Hgt]]; [| exact Heq' |].
      - rewrite (Hbefore k' Hlt) in Hat'. discriminate.
      - rewrite (Hbefore' k Hgt) in Hat. discriminate. }
    split; [| split; [| split; [| split]]].
    + destruct (report Iterate values k); split; congruence.
    + split.
      * intros Hret. exists k. split; [exact Hk |].
        split; [| exact Hbefore].
        destruct (report Iterate values k); congruence.
      * intros (k' & Hk' & Hconv & Hbefore').
        assert (k' = k) as ->.
        { apply Huniq; [exact Hk' | by rewrite Hconv | exact Hbefore']. }
        by rewrite Hconv.
    + intros k' st Hk' Hst Hstop Hbefore'.
      assert (k' = k) as ->.
      { apply Huniq; [exact Hk' | by rewrite Hst | exact Hbefore']. }
      rewrite Hst. auto.
    + intros Hall. rewrite (Hall k Hk) in Hat. discriminate.
    + destruct (report Iterate values k); (discriminate || reflexivity).
  - split; [| split; [| split; [| split]]].
    + split; discriminate.
    + split; [discriminate |].
      intros (k & Hk & Hconv & _). specialize (Hall k Hk).
      rewrite Hconv in Hall. discriminate.
    + intros k st Hk Hst Hstop _. specialize (Hall k Hk).
      rewrite Hst, Hstop in Hall. discriminate.
    + auto.
    + reflexivity.
Qed.

Lemma Optimize_true_iff_converged_witness :
  (2 < budget {| iterations := 50 |} (-1))%nat
  /\ report (count_to 3) 0%nat 2 = CONVERGED
  /\ running CONVERGED = false
  /\ (forall i : nat, (i < 2)%nat -> running (report (count_to 3) 0%nat i) = true)
  /\ (let o := Optimize (count_to 3) (fun v : nat => v) {| iterations := 50 |}
                 0%nat (-1)%Z true in
      exit_status o = CONVERGED
      /\ final_values o = values_after (count_to 3) 0%nat 3
      /\ returned o = true).
Proof.
  assert (H1 : (2 < budget {| iterations := 50 |} (-1))%nat) by (vm_compute; lia).
  assert (H2 : forall i : nat,
             (i < 2)%nat -> running (report (count_to 3) 0%nat i) = true).
  { intros [|[|i]] Hi; [reflexivity | reflexivity | lia]. }
  split; [exact H1 |]. split; [reflexivity |]. split; [reflexivity |].
  split; [exact H2 |].
  exact (proj1 (proj2 (proj2
           (Optimize_true_iff_converged (count_to 3) (fun v : nat => v)
              {| iterations := 50 |} 0%nat (-1)%Z true)))
           2%nat CONVERGED H1 eq_refl eq_refl H2).
Defined.

(** The driver on counters: with enough iterations the call converges and
    returns true, with too few it stops at the budget and returns false. *)
Example Optimize_count_to :
  (let o := Optimize (count_to 3) (fun v => v) {| iterations := 50 |} 0%nat (-1)%Z true in
   final_values o = 3%nat /\ exit_status o = CONVERGED /\ returned o = true
   /\ best o = Some 3%nat)
  /\ (let o := Optimize (count_to 3) (fun v => v) {| iterations := 50 |} 0%nat 2%Z false in
      final_values o = 2%nat /\ exit_status o = MAX_ITERATIONS /\ returned o = false
      /\ best o = None).
Proof. split; vm_compute; auto. Qed.

(** *** Covariances *)

Lemma foldl_insert_other (f : index_entry_t -> MatrixX) (l : list index_entry_t)
    (m : gmap Key MatrixX) (k : Key) :
  k ∉ (key <$> l) ->
  foldl (fun out e => <[key e := f e]> out) m l !! k = m !! k.
Proof.
  revert m. induction l as [|a l IH]; intros m Hk; simpl; [reflexivity |].
  simpl in Hk. apply not_elem_of_cons in Hk as [Hka Hkl].
  rewrite IH by exact Hkl. by rewrite lookup_insert_ne.
Qed.

Lemma foldl_insert_lookup (f : index_entry_t -> MatrixX) (l : list index_entry_t)
    (m : gmap Key MatrixX) (e : index_entry_t) :
  NoDup (key <$> l) -> e ∈ l ->
  foldl (fun out e => <[key e := f e]> out) m l !! key e = Some (f e).
Proof.
  revert m. induction l as [|a l IH]; intros m Hnd He; simpl.
  - by apply elem_of_nil in He.
  - simpl in Hnd. apply NoDup_cons in Hnd as [Ha Hnd].
    apply elem_of_cons in He as [-> | He].
    + rewrite foldl_insert_other by exact Ha. apply lookup_insert_eq.
    + by apply IH.
Qed.

Lemma foldl_insert_dom (f : index_entry_t -> MatrixX) (l : list index_entry_t)
    (m : gmap Key MatrixX) :
  dom (foldl (fun out e => <[key e := f e]> out) m l)
  = dom m ∪ list_to_set (key <$> l).
Proof.
  revert m. induction l as [|a l IH]; intros m; simpl.
  - by rewrite (right_id_L ∅ (∪)).
  - rewrite IH, dom_insert_L.
    rewrite (comm_L (∪) {[key a]} (dom m)).
    by rewrite (assoc_L (∪)).
Qed.

Lemma prefix_take_keys (keys : list Key) (index : list index_entry_t) :
  keys `prefix_of` (key <$> index) ->
  key <$> take (length keys) index = keys.
Proof.
  intros [rest Hrest].
  rewrite fmap_take, Hrest. by rewrite take_app_length.
Qed.

(** In an index whose entries follow one another, an entry starts where
    the entries before it end. *)
Lemma offsets_from_lookup (index : list index_entry_t) (off q : nat)
    (e : index_entry_t) :
  offsets_from off index = true -> index !! q = Some e ->
  tangent_offset e = (off + block_dim (take q index))%nat.
Proof.
  revert off q. induction index as [|a index IH]; intros off q Hoff Hq.
  - discriminate.
  - cbn in Hoff. apply andb_true_iff in Hoff as [Ha Hrest].
    apply Nat.eqb_eq in Ha.
    destruct q as [|q]; cbn in *.
    + injection Hq as <-. lia.
    + rewrite (IH _ _ Hrest Hq). unfold block_dim. lia.
Qed.

Lemma forallb_seq (n : nat) (P : nat -> bool) :
  forallb P (seq 0 n) = true -> forall i : nat, (i < n)%nat -> P i = true.
Proof.
  intros H i Hi. rewrite forallb_forall in H. apply H. apply in_seq. lia.
Qed.

(** What the solver hands out is a square matrix of the size of [A], and
    a right inverse of [A]. *)
Lemma inverse_sound (A X : MatrixX) :
  inverse A = Some X ->
  rows A = cols A /\ rows X = rows A /\ cols X = rows A
  /\ forall i j : nat,
       (i < rows A)%nat -> (j < rows A)%nat ->
       sum_upto (rows A) (fun t => coeff A i t * coeff X t j) == delta i j.
Proof.
  unfold inverse.
  destruct (rows A =? cols A)%nat eqn:Hsq; [| discriminate]. cbn [negb].
  apply Nat.eqb_eq in Hsq.
  destruct (gauss_jordan A) as [Y|] eqn:Hgj; [| discriminate].
  destruct (is_identity (mmul A Y)) eqn:Hid; [| discriminate].
  intros [= <-].
  assert (Hdim : rows Y = rows A /\ cols Y = rows A).
  { unfold gauss_jordan in Hgj.
    destruct (foldl _ _ _) as [L|]; [| discriminate].
    injection Hgj as <-. split; reflexivity. }
  destruct Hdim as [Hr Hc].
  split; [exact Hsq |]. split; [exact Hr |]. split; [exact Hc |].
  intros i j Hi Hj.
  unfold is_identity in Hid. apply andb_true_iff in Hid as [_ Hid].
  cbn [mmul rows cols coeff] in Hid.
  pose proof (forallb_seq _ _ Hid i Hi) as Hrow. cbn beta in Hrow.
  rewrite Hc in Hrow.
  pose proof (forallb_seq _ _ Hrow j Hj) as Hcell. cbn beta in Hcell.
  apply Qeq_bool_iff in Hcell. rewrite <- Hsq in Hcell. exact Hcell.
Qed.

(** C6. [ComputeCovariances] asks for [keys] to be a prefix of the keys of
    the problem; outside of that precondition the call has no result.
    Under it, when the solver inverts the block [C] of the other keys and
    the Schur complement [S = B - E C^-1 E^T], the result maps every
    requested key to a square matrix of its tangent dimension, whose
    coefficients are those of the inverse of [S] on the diagonal, at the
    place where the tangent dimensions of the keys before it end; it
    changes no other entry, and has exactly the requested keys when the
    map passed in had no key outside of them. *)
Theorem ComputeCovariances_prefix_blocks
    (hessian : MatrixX) (index : list index_entry_t) (keys : list Key)
    (covariances_by_key : gmap Key MatrixX) (schur Sinv : MatrixX) :
  (~ keys `prefix_of` (key <$> index) ->
   ComputeCovariances hessian index keys covariances_by_key = None)
  /\ (keys `prefix_of` (key <$> index) ->
      NoDup keys ->
      offsets_from 0 index = true ->
      schur_complement hessian (block_dim (take (length keys) index)) = Some schur ->
      inverse schur = Some Sinv ->
      let n := block_dim (take (length keys) index) in
      let rest := (rows hessian - n)%nat in
      exists (out : gmap Key MatrixX) (Cinv : MatrixX),
        ComputeCovariances hessian index keys covariances_by_key = Some out
        /\ (forall k l : nat,
              (k < rest)%nat -> (l < rest)%nat ->
              sum_upto rest
                (fun t => coeff hessian (n + k) (n + t) * coeff Cinv t l)
              == delta k l)
        /\ rows schur = n /\ cols schur = n
        /\ (forall i j : nat,
              coeff schur i j
              = coeff hessian i j
                - sum_upto rest
                    (fun l =>
                       sum_upto rest
                         (fun k => coeff hessian i (n + k) * coeff Cinv k l)
                       * coeff hessian j (n + l)))
        /\ rows Sinv = n /\ cols Sinv = n
        /\ (forall i j : nat,
              (i < n)%nat -> (j < n)%nat ->
              sum_upto n (fun t => coeff schur i t * coeff Sinv t j) == delta i j)
        /\ (forall (q : nat) (e : index_entry_t),
              take (length keys) index !! q = Some e ->
              keys !! q = Some (key e)
              /\ exists block_q : MatrixX,
                   out !! key e = Some block_q
                   /\ rows block_q = tangent_dim e
                   /\ cols block_q = tangent_dim e
                   /\ forall a b : nat,
                        coeff block_q a b
                        = coeff Sinv (block_dim (take q index) + a)
                                     (block_dim (take q index) + b))
        /\ (forall k : Key, k ∈ keys -> is_Some (out !! k))
        /\ (forall k : Key, k ∉ keys -> out !! k = covariances_by_key !! k)
        /\ (dom covariances_by_key ⊆ list_to_set keys ->
            dom out = list_to_set keys)).
Proof.
  split.
  - intros Hnp. unfold ComputeCovariances. by rewrite decide_False.
  - intros Hp Hnd Hoff HS Hinv n rest. unfold ComputeCovariances.
    rewrite decide_True by exact Hp. fold n in HS |- *. rewrite HS, Hinv.
    pose proof (prefix_take_keys keys index Hp) as Hkeys.
    unfold schur_complement in HS. fold rest in HS.
    destruct (inverse (block hessian n n rest rest)) as [Cinv|] eqn:HC;
      [| discriminate].
    injection HS as HS.
    destruct (inverse_sound _ _ HC) as (_ & HCr & HCc & HCinv).
    cbn [block rows cols coeff] in HCr, HCc, HCinv.
    destruct (inverse_sound _ _ Hinv) as (_ & HSr & HSc & HSinv).
    assert (Hrs : rows schur = n) by (by rewrite <- HS).
    assert (Hcs : cols schur = n) by (by rewrite <- HS).
    rewrite Hrs in HSr, HSc, HSinv.
    eexists. exists Cinv. split; [reflexivity |].
    split; [exact HCinv |].
    split; [exact Hrs |]. split; [exact Hcs |].
    split.
    { intros i j. rewrite <- HS. cbn [msub mmul transpose block rows cols coeff].
      rewrite HCc. reflexivity. }
    split; [exact HSr |]. split; [exact HSc |]. split; [exact HSinv |].
    split; [| split; [| split]].
    + intros q e He.
      assert (Hidx : index !! q = Some e /\ (q < length keys)%nat).
      { apply lookup_take_Some in He. exact He. }
      destruct Hidx as [Hidx Hq].
      split.
      { rewrite <- Hkeys. rewrite list_lookup_fmap, He. reflexivity. }
      exists (covariance_block Sinv e).
      split.
      { apply foldl_insert_lookup; [by rewrite Hkeys |].
        apply list_elem_of_lookup. by exists q. }
      unfold covariance_block. cbn [block rows cols coeff].
      rewrite (offsets_from_lookup index 0 q e Hoff Hidx), Nat.add_0_l.
      split; [reflexivity |]. split; reflexivity.
    + intros k Hk. rewrite <- Hkeys in Hk.
      apply list_elem_of_fmap in Hk as (e & -> & He).
      rewrite foldl_insert_lookup; [by eexists | by rewrite Hkeys | exact He].
    + intros k Hk. apply foldl_insert_other. by rewrite Hkeys.
    + intros Hdom. rewrite foldl_insert_dom, Hkeys.
      by apply subseteq_union_1_L.
Qed.

(** On the three-key problem the Schur complement route gives the first
    two keys the variances they have in the inverse of the full Hessian. *)
Example covariance3_values :
  to_rows covariance3 = [[15 # 43; -5 # 43]; [-5 # 43; 16 # 43]]
  /\ (to_rows <$> inverse hessian3)
     = Some [[15 # 43; -5 # 43; -6 # 43]; [-5 # 43; 16 # 43; 2 # 43];
             [-6 # 43; 2 # 43; 11 # 43]].
Proof. split; vm_compute; reflexivity. Qed.

Lemma ComputeCovariances_prefix_blocks_witness :
  [x0; x1] `prefix_of` (key <$> index3)
  /\ NoDup [x0; x1]
  /\ offsets_from 0 index3 = true
  /\ schur_complement hessian3 (block_dim (take (length [x0; x1]) index3)) = Some schur3
  /\ inverse schur3 = Some covariance3
  /\ exists out : gmap Key MatrixX,
       ComputeCovariances hessian3 index3 [x0; x1] ∅ = Some out
       /\ (exists block0 : MatrixX,
             out !! x0 = Some block0 /\ rows block0 = 1%nat /\ cols block0 = 1%nat
             /\ coeff block0 0 0 = coeff covariance3 0 0)
       /\ (exists block1 : MatrixX,
             out !! x1 = Some block1 /\ rows block1 = 1%nat /\ cols block1 = 1%nat
             /\ coeff block1 0 0 = coeff covariance3 1 1)
       /\ out !! l0 = None
       /\ dom out = list_to_set [x0; x1].
Proof.
  assert (H1 : [x0; x1] `prefix_of` (key <$> index3)) by (exists [l0]; reflexivity).
  assert (H2 : NoDup [x0; x1]) by compute_done.
  assert (H0 : offsets_from 0 index3 = true) by reflexivity.
  assert (H3 : schur_complement hessian3 (block_dim (take (length [x0; x1]) index3))
               = Some schur3) by (vm_compute; reflexivity).
  assert (H4 : inverse schur3 = Some covariance3) by (vm_compute; reflexivity).
  split; [exact H1 |]. split; [exact H2 |]. split; [exact H0 |].
  split; [exact H3 |]. split; [exact H4 |].
  destruct (proj2 (ComputeCovariances_prefix_blocks hessian3 index3 [x0; x1] ∅
                     schur3 covariance3) H1 H2 H0 H3 H4)
    as (out & Cinv & Hout & _ & _ & _ & _ & _ & _ & _ & Hblocks & _ & Hother & Hdom).
  exists out. split; [exact Hout |].
  destruct (Hblocks 0%nat (mkEntry x0 0 1 0 1) eq_refl)
    as (_ & b0 & Hb0 & Hr0 & Hc0 & Hcoeff0).
  destruct (Hblocks 1%nat (mkEntry x1 1 1 1 1) eq_refl)
    as (_ & b1 & Hb1 & Hr1 & Hc1 & Hcoeff1).
  split; [exists b0; split; [exact Hb0 |]; split; [exact Hr0 |]; split;
          [exact Hc0 | exact (Hcoeff0 0%nat 0%nat)] |].
  split; [exists b1; split; [exact Hb1 |]; split; [exact Hr1 |]; split;
          [exact Hc1 | exact (Hcoeff1 0%nat 0%nat)] |].
  split.
  - rewrite Hother; [reflexivity |]. compute_done.
  - apply Hdom. rewrite dom_empty_L. apply empty_subseteq.
Defined.

(** * Part III: further properties of LandmarkPriorFactor *)

(** ** The store across calls *)

(** X6. A call that is given live matrices creates and destroys none: the
    live objects of the store are the same before and after. *)
Theorem LandmarkPriorFactor_live_objects {Scalar : Type} {ops : Arith Scalar}
    (landmark inverse_range_prior weight sigma epsilon : Scalar)
    (res jacobian hessian rhs : ptr) (m : machine Scalar) :
  allocated (heap m) res && allocated (heap m) jacobian
  && allocated (heap m) hessian && allocated (heap m) rhs = true ->
  exists m' : machine Scalar,
    LandmarkPriorFactor landmark inverse_range_prior weight sigma epsilon
      res jacobian hessian rhs m = Done tt m'
    /\ dom (heap m') = dom (heap m).
Proof.
  rewrite !andb_true_iff. intros (((A1 & A2) & A3) & A4).
  eexists. split; [by apply LandmarkPriorFactor_run |].
  cbn [heap].
  rewrite dom_write by (by do 3 apply allocated_write).
  rewrite dom_write by (by do 2 apply allocated_write).
  rewrite dom_write by (by apply allocated_write).
  by rewrite dom_write.
Qed.

Lemma LandmarkPriorFactor_live_objects_witness :
  allocated (heap four_matrices) (Some 3%positive) && allocated (heap four_matrices) nullptr
  && allocated (heap four_matrices) (Some 3%positive)
  && allocated (heap four_matrices) (Some 1%positive) = true
  /\ exists m' : machine Exact.t,
       LandmarkPriorFactor (Num 0) (Num 3) (Num 2) (Num (1 # 2)) (Num (1 # 1000000000))
         (Some 3%positive) nullptr (Some 3%positive) (Some 1%positive)
         four_matrices = Done tt m'
       /\ dom (heap m') = dom (heap four_matrices).
Proof.
  split; [reflexivity |].
  exact (LandmarkPriorFactor_live_objects
           (Num 0) (Num 3) (Num 2) (Num (1 # 2)) (Num (1 # 1000000000))
           (Some 3%positive) nullptr (Some 3%positive) (Some 1%positive)
           four_matrices eq_refl).
Defined.

(** X5. The outputs are stored, not accumulated: a second call with the
    same arguments, on the store the first call left, leaves that store as
    it is, also when output pointers name the same matrix; it performs the
    same two divisions again. *)
Theorem LandmarkPriorFactor_idempotent {Scalar : Type} {ops : Arith Scalar}
    (landmark inverse_range_prior weight sigma epsilon : Scalar)
    (res jacobian hessian rhs : ptr) (m : machine Scalar) :
  allocated (heap m) res && allocated (heap m) jacobian
  && allocated (heap m) hessian && allocated (heap m) rhs = true ->
  exists m1 m2 : machine Scalar,
    LandmarkPriorFactor landmark inverse_range_prior weight sigma epsilon
      res jacobian hessian rhs m = Done tt m1
    /\ LandmarkPriorFactor landmark inverse_range_prior weight sigma epsilon
         res jacobian hessian rhs m1 = Done tt m2
    /\ heap m2 = heap m1
    /\ divisions m2
       = divisions m1
         ++ [(epsilon + sigma)%S; ((epsilon + sigma) * (epsilon + sigma))%S].
Proof.
  rewrite !andb_true_iff. intros (((A1 & A2) & A3) & A4).
  eexists. eexists.
  split; [by apply LandmarkPriorFactor_run |].
  split.
  { apply LandmarkPriorFactor_run; cbn [heap]; by do 4 apply allocated_write. }
  split; [| reflexivity].
  cbn [heap]. apply map_eq. intros a. rewrite !lookup_write.
  repeat case_decide; reflexivity.
Qed.

Lemma LandmarkPriorFactor_idempotent_witness :
  allocated (heap four_matrices) (Some 2%positive)
  && allocated (heap four_matrices) (Some 4%positive)
  && allocated (heap four_matrices) nullptr
  && allocated (heap four_matrices) (Some 2%positive) = true
  /\ exists m1 m2 : machine Exact.t,
       LandmarkPriorFactor (Num 0) (Num 3) (Num 2) (Num (1 # 2)) (Num (1 # 1000000000))
         (Some 2%positive) (Some 4%positive) nullptr (Some 2%positive)
         four_matrices = Done tt m1
       /\ LandmarkPriorFactor (Num 0) (Num 3) (Num 2) (Num (1 # 2)) (Num (1 # 1000000000))
            (Some 2%positive) (Some 4%positive) nullptr (Some 2%positive)
            m1 = Done tt m2
       /\ heap m2 = heap m1.
Proof.
  split; [reflexivity |].
  destruct (LandmarkPriorFactor_idempotent
              (Num 0) (Num 3) (Num 2) (Num (1 # 2)) (Num (1 # 1000000000))
              (Some 2%positive) (Some 4%positive) nullptr (Some 2%positive)
              four_matrices eq_refl) as (m1 & m2 & H1 & H2 & Hheap & _).
  exists m1, m2. auto.
Defined.

(** ** The sign of the Hessian *)

(** X3. The hessian output is never negative. In [float] and in [double]
    it is [+0], a positive number, plus infinity or a NaN, so it never
    compares less than zero, whatever the inputs; in exact arithmetic it
    is a number that is not negative, or undefined. *)
Theorem LandmarkPriorFactor_hessian_sign :
  (forall (f : IEEE.format) (x mu w s e : spec_float)
          (ah : addr) (res jacobian rhs : ptr) (m : machine spec_float),
      outputs_ok m res jacobian (Some ah) rhs = true ->
      exists (m' : machine spec_float) (h : spec_float),
        LandmarkPriorFactor (ops := IEEE.arith f) x mu w s e
          res jacobian (Some ah) rhs m = Done tt m'
        /\ output m' (Some ah) = Some h
        /\ IEEE.is_negative h = false
        /\ SFltb h (S754_zero false) = false)
  /\ (forall (x mu w s e : Exact.t)
             (ah : addr) (res jacobian rhs : ptr) (m : machine Exact.t),
         outputs_ok m res jacobian (Some ah) rhs = true ->
         exists (m' : machine Exact.t) (h : Exact.t),
           LandmarkPriorFactor x mu w s e res jacobian (Some ah) rhs m = Done tt m'
           /\ output m' (Some ah) = Some h
           /\ match h with
              | Num q => 0 <= q
              | Undef => True
              end).
Proof.
  split.
  - intros f x mu w s e ah res jacobian rhs m Hok.
    destruct (LandmarkPriorFactor_outputs (ops := IEEE.arith f) x mu w s e
                _ _ _ _ _ Hok) as (m' & Hrun & _ & _ & Hh & _).
    exists m'. eexists. split; [exact Hrun |]. split; [exact Hh |].
    assert (Hsign : IEEE.is_negative (hessian_term (ops := IEEE.arith f) w s e) = false).
    { unfold hessian_term. cbn [Sadd Smul Sdiv IEEE.arith].
      apply ieee_div_sign; apply ieee_square_sign. }
    split; [exact Hsign | by apply ieee_not_negative_ltb].
  - intros x mu w s e ah res jacobian rhs m Hok.
    destruct (LandmarkPriorFactor_outputs x mu w s e _ _ _ _ _ Hok)
      as (m' & Hrun & _ & _ & Hh & _).
    exists m'. eexists. split; [exact Hrun |]. split; [exact Hh |].
    unfold hessian_term.
    destruct w as [w|], s as [s|], e as [e|]; cbn; try exact I.
    rewrite is_zero_square.
    destruct (Exact.is_zero (e + s)) eqn:Hz; [exact I |].
    apply is_zero_false in Hz.
    assert (Hsq : w * w / ((e + s) * (e + s)) == (w / (e + s)) * (w / (e + s))).
    { field. exact Hz. }
    rewrite Hsq. unfold Qle. cbn. rewrite Z.mul_1_r. apply Z.square_nonneg.
Qed.

Lemma LandmarkPriorFactor_hessian_sign_witness :
  outputs_ok four_floats nullptr nullptr (Some 3%positive) nullptr = true
  /\ exists (m' : machine spec_float) (h : spec_float),
       LandmarkPriorFactor (ops := IEEE.arith IEEE.binary64)
         (double 0) (double 3) (double (-2)) (double (1 # 2)) (double (1 # 1000000000))
         nullptr nullptr (Some 3%positive) nullptr four_floats = Done tt m'
       /\ output m' (Some 3%positive) = Some h
       /\ IEEE.is_negative h = false
       /\ SFltb h (S754_zero false) = false.
Proof.
  split; [reflexivity |].
  exact (proj1 LandmarkPriorFactor_hessian_sign IEEE.binary64
           (double 0) (double 3) (double (-2)) (double (1 # 2)) (double (1 # 1000000000))
           3%positive nullptr nullptr nullptr four_floats eq_refl).
Defined.

(** ** The gradient at the prior *)

(** X4. In [float] and in [double], at a landmark equal to a finite prior
    the rhs output is a zero whenever the quotient
    [weight^2 / (epsilon + sigma)^2] is finite. *)
Theorem LandmarkPriorFactor_rhs_at_prior
    (f : IEEE.format) (mu w s e : spec_float)
    (ag : addr) (res jacobian hessian : ptr) (m : machine spec_float) :
  IEEE.is_finite mu = true ->
  IEEE.is_finite
    (IEEE.div f (IEEE.mul f w w) (IEEE.mul f (IEEE.add f e s) (IEEE.add f e s))) = true ->
  outputs_ok m res jacobian hessian (Some ag) = true ->
  exists (m' : machine spec_float) (g : spec_float),
    LandmarkPriorFactor (ops := IEEE.arith f) mu mu w s e
      res jacobian hessian (Some ag) m = Done tt m'
    /\ output m' (Some ag) = Some g
    /\ IEEE.is_zero g = true.
Proof.
  intros Hmu Hquot Hok.
  destruct (LandmarkPriorFactor_outputs (ops := IEEE.arith f) mu mu w s e
              _ _ _ _ _ Hok) as (m' & Hrun & _ & _ & _ & Hg & _).
  exists m'. eexists. split; [exact Hrun |]. split; [exact Hg |].
  unfold rhs_term. cbn [Sadd Sneg Smul Sdiv IEEE.arith].
  rewrite ieee_sub_self by exact Hmu.
  apply ieee_mul_zero_l; [reflexivity | exact Hquot].
Qed.

Lemma LandmarkPriorFactor_rhs_at_prior_witness :
  IEEE.is_finite (double 3) = true
  /\ IEEE.is_finite
       (IEEE.div IEEE.binary64 (IEEE.mul IEEE.binary64 (double 2) (double 2))
          (IEEE.mul IEEE.binary64
             (IEEE.add IEEE.binary64 (double (1 # 1000000000)) (double (1 # 2)))
             (IEEE.add IEEE.binary64 (double (1 # 1000000000)) (double (1 # 2)))))
     = true
  /\ outputs_ok four_floats nullptr nullptr nullptr (Some 4%positive) = true
  /\ exists (m' : machine spec_float) (g : spec_float),
       LandmarkPriorFactor (ops := IEEE.arith IEEE.binary64)
         (double 3) (double 3) (double 2) (double (1 # 2)) (double (1 # 1000000000))
         nullptr nullptr nullptr (Some 4%positive) four_floats = Done tt m'
       /\ output m' (Some 4%positive) = Some g
       /\ IEEE.is_zero g = true.
Proof.
  assert (H1 : IEEE.is_finite (double 3) = true) by (vm_compute; reflexivity).
  assert (H2 : IEEE.is_finite
       (IEEE.div IEEE.binary64 (IEEE.mul IEEE.binary64 (double 2) (double 2))
          (IEEE.mul IEEE.binary64
             (IEEE.add IEEE.binary64 (double (1 # 1000000000)) (double (1 # 2)))
             (IEEE.add IEEE.binary64 (double (1 # 1000000000)) (double (1 # 2)))))
     = true) by (vm_compute; reflexivity).
  split; [exact H1 |]. split; [exact H2 |]. split; [reflexivity |].
  exact (LandmarkPriorFactor_rhs_at_prior IEEE.binary64
           (double 3) (double 2) (double (1 # 2)) (double (1 # 1000000000))
           4%positive nullptr nullptr nullptr four_floats H1 H2 eq_refl).
Defined.

(** ** The sign of the weight *)

(** X7. In [float] and in [double], negating the weight negates the
    residual and the jacobian outputs and leaves the hessian and the rhs
    outputs as they are, bit for bit (a NaN stays a NaN). *)
Theorem LandmarkPriorFactor_weight_sign
    (f : IEEE.format) (x mu w s e : spec_float)
    (ar aj ah ag : addr) (m : machine spec_float) :
  outputs_ok m (Some ar) (Some aj) (Some ah) (Some ag) = true ->
  exists (m1 m2 : machine spec_float) (r j h g : spec_float),
    LandmarkPriorFactor (ops := IEEE.arith f) x mu w s e
      (Some ar) (Some aj) (Some ah) (Some ag) m = Done tt m1
    /\ LandmarkPriorFactor (ops := IEEE.arith f) x mu (IEEE.neg w) s e
         (Some ar) (Some aj) (Some ah) (Some ag) m = Done tt m2
    /\ output m1 (Some ar) = Some r /\ output m2 (Some ar) = Some (IEEE.neg r)
    /\ output m1 (Some aj) = Some j /\ output m2 (Some aj) = Some (IEEE.neg j)
    /\ output m1 (Some ah) = Some h /\ output m2 (Some ah) = Some h
    /\ output m1 (Some ag) = Some g /\ output m2 (Some ag) = Some g.
Proof.
  intros Hok.
  destruct (LandmarkPriorFactor_outputs (ops := IEEE.arith f) x mu w s e
              _ _ _ _ _ Hok) as (m1 & Hrun1 & Hr1 & Hj1 & Hh1 & Hg1 & _).
  destruct (LandmarkPriorFactor_outputs (ops := IEEE.arith f) x mu (IEEE.neg w) s e
              _ _ _ _ _ Hok) as (m2 & Hrun2 & Hr2 & Hj2 & Hh2 & Hg2 & _).
  exists m1, m2. do 4 eexists.
  split; [exact Hrun1 |]. split; [exact Hrun2 |].
  split; [exact Hr1 |].
  split.
  { rewrite Hr2. unfold res_term. cbn [Sadd Sneg Smul Sdiv IEEE.arith requested is_null].
    by rewrite ieee_div_neg_l, ieee_mul_neg_r. }
  split; [exact Hj1 |].
  split.
  { rewrite Hj2. unfold jacobian_term. cbn [Sadd Sneg Smul Sdiv IEEE.arith requested is_null].
    by rewrite ieee_div_neg_l. }
  split; [exact Hh1 |].
  split.
  { rewrite Hh2. unfold hessian_term. cbn [Sadd Sneg Smul Sdiv IEEE.arith requested is_null].
    by rewrite ieee_mul_neg_neg. }
  split; [exact Hg1 |].
  rewrite Hg2. unfold rhs_term. cbn [Sadd Sneg Smul Sdiv IEEE.arith requested is_null].
  by rewrite ieee_mul_neg_neg.
Qed.

Lemma LandmarkPriorFactor_weight_sign_witness :
  outputs_ok four_floats (Some 1%positive) (Some 2%positive) (Some 3%positive)
    (Some 4%positive) = true
  /\ exists (m1 m2 : machine spec_float) (r j h g : spec_float),
       LandmarkPriorFactor (ops := IEEE.arith IEEE.binary64)
         (double (1 # 10)) (double (3 # 10)) (double (1 # 10)) (double (7 # 10))
         (double (1 # 1000000000))
         (Some 1%positive) (Some 2%positive) (Some 3%positive) (Some 4%positive)
         four_floats = Done tt m1
       /\ LandmarkPriorFactor (ops := IEEE.arith IEEE.binary64)
            (double (1 # 10)) (double (3 # 10)) (IEEE.neg (double (1 # 10)))
            (double (7 # 10)) (double (1 # 1000000000))
            (Some 1%positive) (Some 2%positive) (Some 3%positive) (Some 4%positive)
            four_floats = Done tt m2
       /\ output m1 (Some 1%positive) = Some r
       /\ output m2 (Some 1%positive) = Some (IEEE.neg r)
       /\ output m1 (Some 2%positive) = Some j
       /\ output m2 (Some 2%positive) = Some (IEEE.neg j)
       /\ output m1 (Some 3%positive) = Some h /\ output m2 (Some 3%positive) = Some h
       /\ output m1 (Some 4%positive) = Some g /\ output m2 (Some 4%positive) = Some g.
Proof.
  split; [reflexivity |].
  exact (LandmarkPriorFactor_weight_sign IEEE.binary64
           (double (1 # 10)) (double (3 # 10)) (double (1 # 10)) (double (7 # 10))
           (double (1 # 1000000000))
           1%positive 2%positive 3%positive 4%positive four_floats eq_refl).
Defined.

(** ** Division by zero *)

(** X9. When [sigma + epsilon] is zero the call still returns, but both of
    its divisions are by zero and every output that was asked for is left
    undefined, whatever the landmark, the prior and the weight. *)
Theorem LandmarkPriorFactor_division_by_zero
    (x mu w s e : Q) (res jacobian hessian rhs : ptr) (m : machine Exact.t) :
  s + e == 0 ->
  outputs_ok m res jacobian hessian rhs = true ->
  exists (m' : machine Exact.t) (d1 d2 : Q),
    LandmarkPriorFactor (Num x) (Num mu) (Num w) (Num s) (Num e)
      res jacobian hessian rhs m = Done tt m'
    /\ divisions m' = divisions m ++ [Num d1; Num d2]
    /\ d1 == 0 /\ d2 == 0
    /\ output m' res = requested res Undef
    /\ output m' jacobian = requested jacobian Undef
    /\ output m' hessian = requested hessian Undef
    /\ output m' rhs = requested rhs Undef.
Proof.
  intros Hz Hok.
  destruct (LandmarkPriorFactor_outputs (Num x) (Num mu) (Num w) (Num s) (Num e)
              _ _ _ _ _ Hok) as (m' & Hrun & Hr & Hj & Hh & Hg & Hd).
  destruct (terms_undefined x mu w s e Hz) as (Tr & Tj & Th & Tg).
  rewrite Tr in Hr. rewrite Tj in Hj. rewrite Th in Hh. rewrite Tg in Hg.
  assert (Hz' : e + s == 0) by (rewrite <- Hz; ring).
  exists m', (e + s), ((e + s) * (e + s)).
  split; [exact Hrun |]. split; [exact Hd |].
  split; [exact Hz' |]. split; [rewrite Hz'; ring |]. auto.
Qed.

Lemma LandmarkPriorFactor_division_by_zero_witness :
  (1 # 2) + - (1 # 2) == 0
  /\ outputs_ok four_matrices (Some 1%positive) nullptr (Some 3%positive) nullptr = true
  /\ exists (m' : machine Exact.t) (d1 d2 : Q),
       LandmarkPriorFactor (Num 0) (Num 3) (Num 2) (Num (1 # 2)) (Num (- (1 # 2)))
         (Some 1%positive) nullptr (Some 3%positive) nullptr four_matrices = Done tt m'
       /\ divisions m' = [Num d1; Num d2]
       /\ d1 == 0 /\ d2 == 0
       /\ output m' (Some 1%positive) = Some Undef
       /\ output m' (Some 3%positive) = Some Undef.
Proof.
  assert (H1 : (1 # 2) + - (1 # 2) == 0) by reflexivity.
  split; [exact H1 |]. split; [reflexivity |].
  destruct (LandmarkPriorFactor_division_by_zero 0 3 2 (1 # 2) (- (1 # 2))
              (Some 1%positive) nullptr (Some 3%positive) nullptr four_matrices
              H1 eq_refl)
    as (m' & d1 & d2 & Hrun & Hd & Hd1 & Hd2 & Hr & _ & Hh & _).
  exists m', d1, d2. auto 10.
Defined.
